(** * A model of the low-volume ranker (player.{h,cpp}, low_vol_ranker.{h,cpp})

    The C++ sources are embedded as Rocq functions, one per member function,
    under the source's names.

    Conventions of the embedding:
    - A stored [float] (a rating, an rd, a score) is a finite value, carried
      by a real number. The update formulas of [Player] are taken in exact
      arithmetic: [log], [pow], [sqrt] and [M_PI] are [ln], [Rpower], [sqrt]
      and [PI], without rounding.
    - [compute_score_var], whose result decides the comparisons of
      [get_best_opp], is evaluated as the machine does it: in IEEE 754 single
      precision, round to nearest even, with overflow to infinity, underflow
      to 0 and NaN, and with [pow] in double precision.
    - [int] is a 32-bit two's complement integer and [size_t] an unsigned
      64-bit integer, both carried by [Z] with the conversions written out.
    - [std::vector] is a list; [operator[]] outside the vector is undefined
      behaviour in C++ and is a fault ([None]) here. *)

From stdpp Require Import base option list.
From Stdlib Require Import ZArith Lia Reals Lra.
From Stdlib Require String.

Local Open Scope Z_scope.

(** ** Machine integers *)

Definition INT_MIN : Z := -2147483648.
Definition INT_MAX : Z := 2147483647.

(** Conversion of an integer value to [int] (two's complement wrap-around). *)
Definition to_int (z : Z) : Z := (z + 2 ^ 31) mod 2 ^ 32 - 2 ^ 31.

(** Conversion of an [int] to [size_t], as the usual arithmetic conversions do
    it when an [int] meets a [size_t] in a comparison or an index. *)
Definition to_size_t (z : Z) : Z := z mod 2 ^ 64.

(** ** Floating point values *)

Definition float : Type := R.

(** The comparison [x > y] of two [float] values. *)
Definition float_gt (x y : float) : bool :=
  if Rgt_dec x y then true else false.

(** Truncation toward zero, the value of a floating point to integer
    conversion. *)
Definition Rtrunc (x : R) : Z :=
  if Rle_dec 0 x then Int_part x else - Int_part (- x).

(** [float] to [int]: the truncated value when [int] can hold it; the
    conversion is undefined otherwise. *)
Definition float_to_int (x : float) : option Z :=
  let t := Rtrunc x in
  if decide (INT_MIN <= t <= INT_MAX) then Some t else None.

(** [std::vector::operator[]] at a [size_t] position. *)
Definition vector_at {A} (v : list A) (i : Z) : option A :=
  if decide (0 <= i) then v !! Z.to_nat i else None.

(** ** IEEE 754 binary arithmetic

    The values of a binary format are the finite ones, carried by the real
    number they stand for, the two infinities and NaN. Zero carries no sign:
    the only place where IEEE 754 tells the zeros apart, a division by zero,
    takes the sign of the dividend here. *)

Inductive fp : Type :=
  | Finite (x : R)
  | Inf (negative : bool)
  | NaN.

(** A format: the number of bits of the significand, the exponent of the
    smallest subnormal and the exponent of the overflow threshold. *)
Record format : Type := mkFormat { prec : Z; emin : Z; emax : Z }.

(** [float] *)
Definition binary32 : format := {| prec := 24; emin := -149; emax := 128 |}.

(** [double] *)
Definition binary64 : format := {| prec := 53; emin := -1074; emax := 1024 |}.

(** [2^e] *)
Definition bpow (e : Z) : R :=
  if 0 <=? e then IZR (2 ^ e) else (/ IZR (2 ^ (- e)))%R.

(** The binary exponent of a nonzero real: the [e] with
    [2^e <= |x| < 2^(e+1)]. *)
Definition mag (x : R) : Z := Int_part (ln (Rabs x) / ln 2).

(** The nearest integer, the even one of the two at a tie. *)
Definition rne (y : R) : Z :=
  let f := Int_part y in
  if Rlt_dec (y - IZR f) (/ 2) then f
  else if Rlt_dec (/ 2) (y - IZR f) then f + 1
  else if Z.even f then f else f + 1.

(** The exponent of the unit in the last place of [x] in the format. *)
Definition cexp (f : format) (x : R) : Z := Z.max (mag x - (prec f - 1)) (emin f).

(** Rounding to nearest even with an unbounded exponent range above. *)
Definition round_real (f : format) (x : R) : R :=
  if Req_EM_T x 0 then 0%R
  else (IZR (rne (x / bpow (cexp f x))) * bpow (cexp f x))%R.

(** The largest finite number of the format. *)
Definition max_finite (f : format) : R :=
  (IZR (2 ^ prec f - 1) * bpow (emax f - prec f))%R.

Definition is_neg (x : R) : bool := if Rlt_dec x 0 then true else false.

(** The value of the format that an exact result [x] becomes: the rounded
    number, or the infinity of its sign once that exceeds the range. *)
Definition fround (f : format) (x : R) : fp :=
  let r := round_real f x in
  if Rlt_dec (max_finite f) (Rabs r) then Inf (is_neg x) else Finite r.

Definition fneg (a : fp) : fp :=
  match a with
  | Finite x => Finite (- x)
  | Inf s => Inf (negb s)
  | NaN => NaN
  end.

Definition fadd (f : format) (a b : fp) : fp :=
  match a, b with
  | NaN, _ | _, NaN => NaN
  | Inf s, Inf s' => if Bool.eqb s s' then Inf s else NaN
  | Inf s, Finite _ | Finite _, Inf s => Inf s
  | Finite x, Finite y => fround f (x + y)
  end.

Definition fsub (f : format) (a b : fp) : fp := fadd f a (fneg b).

Definition fmul (f : format) (a b : fp) : fp :=
  match a, b with
  | NaN, _ | _, NaN => NaN
  | Inf s, Inf s' => Inf (xorb s s')
  | Inf s, Finite y | Finite y, Inf s =>
      if Req_EM_T y 0 then NaN else Inf (xorb s (is_neg y))
  | Finite x, Finite y => fround f (x * y)
  end.

Definition fdiv (f : format) (a b : fp) : fp :=
  match a, b with
  | NaN, _ | _, NaN => NaN
  | Inf _, Inf _ => NaN
  | Inf s, Finite y => Inf (xorb s (is_neg y))
  | Finite _, Inf _ => Finite 0
  | Finite x, Finite y =>
      if Req_EM_T y 0
      then if Req_EM_T x 0 then NaN else Inf (is_neg x)
      else fround f (x / y)
  end.

(** The comparison [a > b]: false as soon as one side is NaN. *)
Definition fgt (a b : fp) : bool :=
  match a, b with
  | Finite x, Finite y => float_gt x y
  | Inf false, Finite _ | Inf false, Inf true | Finite _, Inf true => true
  | _, _ => false
  end.

(** [pow(10, x)] of the C library, on [double]: the exact power rounded to
    double precision, with the limits at the infinities. *)
Definition pow10 (x : fp) : fp :=
  match x with
  | Finite x => fround binary64 (Rpower 10 x)
  | Inf false => Inf false
  | Inf true => Finite 0
  | NaN => NaN
  end.

(** The conversion of a [double] to [float]. *)
Definition narrow (d : fp) : fp :=
  match d with
  | Finite x => fround binary32 x
  | Inf s => Inf s
  | NaN => NaN
  end.

(** ** player.h, player.cpp *)

Module Player.

Record t : Type := mk {
  id_ : Z;
  rating_ : float;
  rd_ : float;
  num_comps_ : Z
}.

(** [const float Q = log(10) / 400;] *)
Definition Q : float := (ln 10 / 400)%R.

(** [Player(int id, float rating=0, float rd=350)] *)
Definition new (id : Z) (rating rd : float) : t :=
  {| id_ := id; rating_ := rating; rd_ := rd; num_comps_ := 0 |}.

Definition default_rating : float := 0%R.
Definition default_rd : float := 350%R.

(** The converting constructor call [Player(id)], both defaults taken. *)
Definition of_int (id : Z) : t := new id default_rating default_rd.

Definition get_rating (p : t) : float := rating_ p.
Definition get_rd (p : t) : float := rd_ p.
Definition get_num_comps (p : t) : Z := num_comps_ p.

(** [rating = rating;] assigns the parameter to itself; the object is left
    as it was. *)
Definition set_rating (p : t) (rating : float) : t :=
  let rating := rating in p.

(** [rd = rd;] likewise. *)
Definition set_rd (p : t) (rd : float) : t :=
  let rd := rd in p.

Definition get_g (p : t) (opp_rd : float) : float :=
  (1 / sqrt (1 + 3 * Q * Q * opp_rd * opp_rd / PI / PI))%R.

Definition get_expected_score (p : t) (opp_rating opp_rd g : float) : float :=
  (1 / (1 + Rpower 10 ((- g) * (rating_ p - opp_rating) / 400)))%R.

Definition get_d2 (p : t) (opp_rating opp_rd : float) : float :=
  (1 / (Q * Q * get_g p opp_rd * get_g p opp_rd
        * get_expected_score p opp_rating opp_rd (get_g p opp_rd)
        * (1 - get_expected_score p opp_rating opp_rd (get_g p opp_rd))))%R.

Definition get_new_rating (p : t) (score opp_rating opp_rd d2 : float) : float :=
  let g := get_g p opp_rd in
  (rating_ p
   + Q / (1 / (rd_ p * rd_ p) + 1 / d2) * g
     * (score - get_expected_score p opp_rating opp_rd g))%R.

Definition get_new_rd (p : t) (d2 : float) : float :=
  sqrt (1 / (1 / (rd_ p * rd_ p) + 1 / d2))%R.

(** [num_comps_++] is written with the wrap-around of [int]; C++ leaves the
    overflow undefined. *)
Definition update (p : t) (score opp_rating opp_rd : float) : t :=
  let d2 := get_d2 p opp_rating opp_rd in
  let new_rating := get_new_rating p score opp_rating opp_rd d2 in
  let new_rd := get_new_rd p d2 in
  let p := set_rating p new_rating in
  let p := set_rd p new_rd in
  {| id_ := id_ p; rating_ := rating_ p; rd_ := rd_ p;
     num_comps_ := to_int (num_comps_ p + 1) |}.

(** Every operation is a [float] operation, but for [pow]: its arguments are
    converted to [double], exactly, and its [double] result is converted to
    [float] by the initialisation of [p10]. *)
Definition compute_score_var (p : t) (opp_rating opp_rd : float) : fp :=
  let p10 :=
    narrow (pow10 (fdiv binary32
                     (fsub binary32 (Finite (rating_ p)) (Finite opp_rating))
                     (Finite 400))) in
  let frac :=
    fdiv binary32 p10
      (fmul binary32 (fadd binary32 (Finite 1) p10) (fadd binary32 (Finite 1) p10)) in
  let frac2 := fmul binary32 frac frac in
  fmul binary32 frac2
    (fadd binary32 (fmul binary32 (Finite (rd_ p)) (Finite (rd_ p)))
                   (fmul binary32 (Finite opp_rd) (Finite opp_rd))).

End Player.

(** Modelled from the spec: the comparison of an avoid-set entry with a
    position, which [std::find(avoid_.begin(), avoid_.end(), i)] applies to a
    [Player] and a [size_t] and which is declared nowhere in the sources. The
    spec has the avoid-set as a set of entity ids and eligibility as "not in
    the avoid-set": an entry matches a position when its id is that position. *)
Definition Player_eq_index (p : Player.t) (i : Z) : bool :=
  to_size_t (Player.id_ p) =? i.

(** ** low_vol_ranker.h, low_vol_ranker.cpp *)

Record Comp : Type := mkComp {
  id1 : Z;
  id2 : Z;
  score : float
}.

Module LowVolRanker.

Record t : Type := mk {
  players_ : list Player.t;
  comps_ : list Comp;
  avoid_ : list Player.t;
  avoid_twice_ : bool
}.

(** [LowVolRanker(bool avoid_twice=true)]: the three vectors start empty. *)
Definition new (avoid_twice : bool) : t :=
  {| players_ := []; comps_ := []; avoid_ := []; avoid_twice_ := avoid_twice |}.

(** [players_.emplace_back(rating, rd)] constructs the new element as
    [Player(rating, rd)]: against [Player(int id, float rating, float rd=350)]
    the first argument is converted to the [int] id, the second is the
    rating, and the rd is the default. *)
Definition addPlayer (s : t) (rating rd : float) : option t :=
  id ← float_to_int rating;
  Some {| players_ := players_ s ++ [Player.new id rd Player.default_rd];
          comps_ := comps_ s;
          avoid_ := avoid_ s;
          avoid_twice_ := avoid_twice_ s |}.

(** [std::find(avoid_.begin(), avoid_.end(), i) == avoid_.end()] *)
Definition find_is_end (avoid : list Player.t) (i : Z) : bool :=
  negb (existsb (fun p => Player_eq_index p i) avoid).

(** The loop of [get_best_player], entered at position [i] with [ps] the
    players from [i] on. *)
Fixpoint get_best_player_loop (avoid : list Player.t) (ps : list Player.t)
    (i : Z) (max_id : Z) (max_rd : float) : Z :=
  match ps with
  | [] => max_id
  | p :: ps' =>
      if float_gt (Player.get_rd p) max_rd && find_is_end avoid i
      then get_best_player_loop avoid ps' (i + 1) (to_int i) (Player.get_rd p)
      else get_best_player_loop avoid ps' (i + 1) max_id max_rd
  end.

Definition get_best_player (s : t) : Z :=
  get_best_player_loop (avoid_ s) (players_ s) 0 (-1) 0%R.

(** The loop of [get_best_opp]; [all] is the whole of [players_], read at
    [players_[id]] for each candidate. *)
Fixpoint get_best_opp_loop (avoid : list Player.t) (all : list Player.t)
    (id : Z) (ps : list Player.t) (i : Z) (max_id : Z) (max_var : fp)
    : option Z :=
  match ps with
  | [] => Some max_id
  | p :: ps' =>
      if negb (i =? to_size_t id) && find_is_end avoid i
      then
        me ← vector_at all (to_size_t id);
        let var := Player.compute_score_var me (Player.get_rating p) (Player.get_rd p) in
        if fgt var max_var
        then get_best_opp_loop avoid all id ps' (i + 1) (to_int i) var
        else get_best_opp_loop avoid all id ps' (i + 1) max_id max_var
      else get_best_opp_loop avoid all id ps' (i + 1) max_id max_var
  end.

Definition get_best_opp (s : t) (id : Z) : option Z :=
  get_best_opp_loop (avoid_ s) (players_ s) id (players_ s) 0 (-1) (Finite 0).

Definition get_next_comp (s : t) : option (Z * Z) :=
  let id1 := get_best_player s in
  id2 ← get_best_opp s id1;
  Some (id1, id2).

(** The arguments of the call [players_[a].update(sc, players_[b].get_rating(),
    players_[b].get_rd())] as it reads them from the vector [ps]. *)
Definition update_args (ps : list Player.t) (sc : float) (b : Z)
    : option (float * float * float) :=
  opp ← vector_at ps (to_size_t b);
  Some (sc, Player.get_rating opp, Player.get_rd opp).

(** [players_[a].update(sc, players_[b].get_rating(), players_[b].get_rd())]
    on the vector [ps]. *)
Definition update_player (ps : list Player.t) (a b : Z) (sc : float)
    : option (list Player.t) :=
  me ← vector_at ps (to_size_t a);
  '(sc', opp_rating, opp_rd) ← update_args ps sc b;
  Some (<[Z.to_nat (to_size_t a) := Player.update me sc' opp_rating opp_rd]> ps).

Definition receive_comp (s : t) (id1 id2 : Z) (score : float) (update : bool)
    : option t :=
  let comps := comps_ s ++ [mkComp id1 id2 score] in
  if update then
    players1 ← update_player (players_ s) id1 id2 score;
    players2 ← update_player players1 id2 id1 (1 - score)%R;
    Some {| players_ := players2;
            comps_ := comps;
            avoid_ := if avoid_twice_ s
                      then [] ++ [Player.of_int id1] ++ [Player.of_int id2]
                      else avoid_ s;
            avoid_twice_ := avoid_twice_ s |}
  else
    Some {| players_ := players_ s;
            comps_ := comps;
            avoid_ := avoid_ s;
            avoid_twice_ := avoid_twice_ s |}.

(** [adjust_ratings] has an empty body. *)
Definition adjust_ratings (s : t) : t := s.

(** [dump_ratings] has an empty body. *)
Definition dump_ratings (s : t) (filename : String.string) : t := s.

End LowVolRanker.

(** ** The public interface as a transition system *)

(** The public member functions of [LowVolRanker], with their arguments. *)
Inductive Op : Type :=
  | AddPlayer (rating rd : float)
  | GetNextComp
  | ReceiveComp (id1 id2 : Z) (score : float) (update : bool)
  | AdjustRatings
  | DumpRatings (filename : String.string).

(** What a call hands back: nothing for the [void] functions, the pair for
    [get_next_comp]. *)
Inductive Result : Type :=
  | Void
  | Pair (ids : Z * Z).

(** One call on the state [s]: the value returned and the state after it, or
    [None] when the call runs into undefined behaviour. *)
Definition call (s : LowVolRanker.t) (op : Op) : option (Result * LowVolRanker.t) :=
  match op with
  | AddPlayer rating rd =>
      s' ← LowVolRanker.addPlayer s rating rd; Some (Void, s')
  | GetNextComp =>
      ids ← LowVolRanker.get_next_comp s; Some (Pair ids, s)
  | ReceiveComp id1 id2 score update =>
      s' ← LowVolRanker.receive_comp s id1 id2 score update; Some (Void, s')
  | AdjustRatings => Some (Void, LowVolRanker.adjust_ratings s)
  | DumpRatings filename => Some (Void, LowVolRanker.dump_ratings s filename)
  end.

(** A sequence of calls, first to last. *)
Fixpoint run (s : LowVolRanker.t) (ops : list Op) : option LowVolRanker.t :=
  match ops with
  | [] => Some s
  | op :: ops' => '(_, s') ← call s op; run s' ops'
  end.

(** The states a ranker constructed with [avoid_twice] can be in. *)
Definition reachable (s : LowVolRanker.t) : Prop :=
  exists avoid_twice ops, run (LowVolRanker.new avoid_twice) ops = Some s.

(** The ids of the most recent [receive_comp] call with [update = true] in a
    sequence of calls. *)
Fixpoint last_update (ops : list Op) (acc : option (Z * Z)) : option (Z * Z) :=
  match ops with
  | [] => acc
  | ReceiveComp id1 id2 _ true :: ops' => last_update ops' (Some (id1, id2))
  | _ :: ops' => last_update ops' acc
  end.

(** ** Eligibility *)

(** A position is eligible when it holds a player and the avoid-set does not
    exclude it. *)
Definition eligible (s : LowVolRanker.t) (i : Z) : Prop :=
  0 <= i < Z.of_nat (length (LowVolRanker.players_ s))
  /\ LowVolRanker.find_is_end (LowVolRanker.avoid_ s) i = true.

(** The candidates for the second slot once [id] holds the first. *)
Definition candidate (s : LowVolRanker.t) (id i : Z) : Prop :=
  eligible s i /\ i <> id.

(** Fewer than two positions are eligible: any two eligible positions are the
    same one. *)
Definition fewer_than_two_eligible (s : LowVolRanker.t) : Prop :=
  forall i j : Z, eligible s i -> eligible s j -> i = j.

(** The value [get_best_opp] compares, for the candidate [q] against the
    first entity [me]. *)
Definition var_against (me q : Player.t) : fp :=
  Player.compute_score_var me (Player.get_rating q) (Player.get_rd q).

(** ** Auxiliary notions for the statements *)

(** An [int] value. *)
Definition is_int (z : Z) : Prop := INT_MIN <= z <= INT_MAX.

(** A sequence of [update] calls on one player, each with its score and the
    opponent's rating and rd. *)
Definition apply_updates (p : Player.t) (us : list (float * float * float)) : Player.t :=
  fold_left (fun q '(sc, opp_rating, opp_rd) => Player.update q sc opp_rating opp_rd) us p.

(** The scan that both selection loops perform: walk the players from
    position [i], keep the position of the first player that passes [ok] and
    whose value is strictly above every value kept before it. *)
Fixpoint scan (ok : Z -> Player.t -> bool) (val : Player.t -> float)
    (ps : list Player.t) (i : Z) (max_id : Z) (max_val : float) : Z :=
  match ps with
  | [] => max_id
  | p :: ps' =>
      if ok i p && float_gt (val p) max_val
      then scan ok val ps' (i + 1) (to_int i) (val p)
      else scan ok val ps' (i + 1) max_id max_val
  end.

(** The same scan on single precision values, compared as [get_best_opp]
    compares them. *)
Fixpoint scan_fp (ok : Z -> Player.t -> bool) (val : Player.t -> fp)
    (ps : list Player.t) (i : Z) (max_id : Z) (max_val : fp) : Z :=
  match ps with
  | [] => max_id
  | p :: ps' =>
      if ok i p && fgt (val p) max_val
      then scan_fp ok val ps' (i + 1) (to_int i) (val p)
      else scan_fp ok val ps' (i + 1) max_id max_val
  end.


(** The ids the avoid-set holds, in order. *)
Definition avoid_ids (s : LowVolRanker.t) : list Z :=
  Player.id_ <$> LowVolRanker.avoid_ s.

(** The variance proxy as the spec words it. *)
Definition score_variance (rating rd opp_rating opp_rd : R) : R :=
  let p := Rpower 10 ((rating - opp_rating) / 400) in
  let frac := (p / (1 + p) ^ 2)%R in
  (frac ^ 2 * (rd ^ 2 + opp_rd ^ 2))%R.

(** ** Notions for the properties of whole runs *)

(** The ledger entries a sequence of calls writes, in order. *)
Fixpoint ledger_of (ops : list Op) : list Comp :=
  match ops with
  | [] => []
  | ReceiveComp id1 id2 score _ :: ops' => mkComp id1 id2 score :: ledger_of ops'
  | _ :: ops' => ledger_of ops'
  end.

(** Whether a call registers a player. *)
Definition is_registration (op : Op) : bool :=
  match op with
  | AddPlayer _ _ => true
  | _ => false
  end.

(** Two players with the same rating and the same rd. *)
Definition same_belief (p q : Player.t) : Prop :=
  Player.get_rating p = Player.get_rating q /\ Player.get_rd p = Player.get_rd q.

(** Two collections that agree, position by position, on rating and rd. *)
Definition same_beliefs (ps qs : list Player.t) : Prop :=
  Forall2 same_belief ps qs.

(** The avoid-set names registered players only. *)
Definition avoid_registered (s : LowVolRanker.t) : Prop :=
  Forall (fun p => 0 <= to_size_t (Player.id_ p)
                   < Z.of_nat (length (LowVolRanker.players_ s)))
         (LowVolRanker.avoid_ s).

(** ** Example states *)

(** Three registrations with the default arguments and one comparison with
    its outcome applied. *)
Definition example_ops : list Op :=
  [AddPlayer 0%R 350%R; AddPlayer 0%R 350%R; AddPlayer 0%R 350%R;
   ReceiveComp 0 1 1%R true].

(** The state after the three registrations of [example_ops]. *)
Definition example_registered : LowVolRanker.t :=
  {| LowVolRanker.players_ :=
       [Player.mk 0 350%R 350%R 0; Player.mk 0 350%R 350%R 0; Player.mk 0 350%R 350%R 0];
     LowVolRanker.comps_ := [];
     LowVolRanker.avoid_ := [];
     LowVolRanker.avoid_twice_ := true |}.

(** The state after all of [example_ops]. *)
Definition example_compared : LowVolRanker.t :=
  {| LowVolRanker.players_ :=
       [Player.mk 0 350%R 350%R 1; Player.mk 0 350%R 350%R 1; Player.mk 0 350%R 350%R 0];
     LowVolRanker.comps_ := [mkComp 0 1 1%R];
     LowVolRanker.avoid_ := [Player.of_int 0; Player.of_int 1];
     LowVolRanker.avoid_twice_ := true |}.

(** A state with three players of rd 100, 350 and 350 and nothing to
    avoid. *)
Definition example_mixed : LowVolRanker.t :=
  {| LowVolRanker.players_ :=
       [Player.new 0 0%R 100%R; Player.new 1 0%R 350%R; Player.new 2 0%R 350%R];
     LowVolRanker.comps_ := [];
     LowVolRanker.avoid_ := [];
     LowVolRanker.avoid_twice_ := true |}.

(** Three default players in a ranker with the avoid-repeat policy off. *)
Definition example_free : LowVolRanker.t :=
  {| LowVolRanker.players_ :=
       [Player.mk 0 350%R 350%R 0; Player.mk 0 350%R 350%R 0; Player.mk 0 350%R 350%R 0];
     LowVolRanker.comps_ := [];
     LowVolRanker.avoid_ := [];
     LowVolRanker.avoid_twice_ := false |}.

(** [example_free] after the comparison of players 0 and 1. *)
Definition example_free_compared : LowVolRanker.t :=
  {| LowVolRanker.players_ :=
       [Player.mk 0 350%R 350%R 1; Player.mk 0 350%R 350%R 1; Player.mk 0 350%R 350%R 0];
     LowVolRanker.comps_ := [mkComp 0 1 1%R];
     LowVolRanker.avoid_ := [];
     LowVolRanker.avoid_twice_ := false |}.

(** Two registrations, the second with 20000 as its second argument. *)
Definition example_far_ops : list Op := [AddPlayer 0%R 0%R; AddPlayer 0%R 20000%R].

(** The state after [example_far_ops]: ratings 0 and 20000, both rds 350. *)
Definition example_far : LowVolRanker.t :=
  {| LowVolRanker.players_ := [Player.mk 0 0%R 350%R 0; Player.mk 0 20000%R 350%R 0];
     LowVolRanker.comps_ := [];
     LowVolRanker.avoid_ := [];
     LowVolRanker.avoid_twice_ := true |}.

(** The same two registrations in the other order. *)
Definition example_far_rev_ops : list Op := [AddPlayer 0%R 20000%R; AddPlayer 0%R 0%R].

(** The state after [example_far_rev_ops]: ratings 20000 and 0. *)
Definition example_far_rev : LowVolRanker.t :=
  {| LowVolRanker.players_ := [Player.mk 0 20000%R 350%R 0; Player.mk 0 0%R 350%R 0];
     LowVolRanker.comps_ := [];
     LowVolRanker.avoid_ := [];
     LowVolRanker.avoid_twice_ := true |}.

(** ** Basic facts about the conversions *)

Lemma to_int_id (z : Z) : INT_MIN <= z <= INT_MAX -> to_int z = z.
Proof.
  unfold to_int, INT_MIN, INT_MAX. intros H.
  rewrite Z.mod_small by lia. lia.
Qed.

Lemma to_size_t_id (z : Z) : 0 <= z < 2 ^ 64 -> to_size_t z = z.
Proof. unfold to_size_t. intros H. now rewrite Z.mod_small. Qed.

Lemma to_size_t_minus_one : to_size_t (-1) = 2 ^ 64 - 1.
Proof. reflexivity. Qed.

Lemma float_gt_true (x y : float) : float_gt x y = true <-> (y < x)%R.
Proof.
  unfold float_gt. destruct (Rgt_dec x y) as [H|H]; split; intros H'.
  - exact H.
  - reflexivity.
  - discriminate.
  - contradiction.
Qed.

Lemma float_gt_false (x y : float) : float_gt x y = false <-> (x <= y)%R.
Proof.
  unfold float_gt. destruct (Rgt_dec x y) as [H|H]; split; intros H'.
  - discriminate.
  - unfold Rgt in H. lra.
  - unfold Rgt in H. lra.
  - reflexivity.
Qed.

(** Evaluation of the [float] comparisons in a goal. *)
Ltac eval_float_gt :=
  repeat match goal with
  | |- context [float_gt ?x ?y] =>
      first [ rewrite (proj2 (float_gt_true x y)) by lra
            | rewrite (proj2 (float_gt_false x y)) by lra ]
  end.

Lemma Rtrunc_IZR (z : Z) : Rtrunc (IZR z) = z.
Proof.
  unfold Rtrunc. destruct (Rle_dec 0 (IZR z)) as [H|H].
  - symmetry. apply Int_part_spec. lra.
  - rewrite <- opp_IZR. rewrite <- (Int_part_spec (IZR (- z)) (- z)); [lia|lra].
Qed.

Lemma float_to_int_IZR (z : Z) :
  INT_MIN <= z <= INT_MAX -> float_to_int (IZR z) = Some z.
Proof.
  intros H. unfold float_to_int. rewrite Rtrunc_IZR.
  destruct (decide (INT_MIN <= z <= INT_MAX)); [reflexivity|contradiction].
Qed.

(** The default rating converts to the id 0. *)
Lemma float_to_int_zero : float_to_int 0%R = Some 0.
Proof. apply (float_to_int_IZR 0). unfold INT_MIN, INT_MAX. lia. Qed.

Lemma vector_at_Some {A} (v : list A) (i : Z) (x : A) :
  vector_at v i = Some x <-> 0 <= i /\ v !! Z.to_nat i = Some x.
Proof.
  unfold vector_at. destruct (decide (0 <= i)); split.
  - intros H. split; assumption.
  - intros [_ H]. exact H.
  - discriminate.
  - intros [H _]. contradiction.
Qed.

Lemma vector_at_lt {A} (v : list A) (i : Z) (x : A) :
  vector_at v i = Some x -> 0 <= i < Z.of_nat (length v).
Proof.
  intros [H0 H]%vector_at_Some. apply lookup_lt_Some in H. lia.
Qed.

(** ** Facts about rounding *)

(** A comparison of two integer constants carried into the reals. *)
Ltac Zcmp :=
  first [ apply IZR_le | apply IZR_lt ]; vm_compute; first [ reflexivity | discriminate ].

Section Rounding.

Local Open Scope R_scope.

Lemma ln2_pos : 0 < ln 2.
Proof. rewrite <- ln_1. apply ln_increasing; lra. Qed.

Lemma bpow_pos (e : Z) : 0 < bpow e.
Proof.
  unfold bpow. destruct (0 <=? e)%Z eqn:He.
  - apply IZR_lt. apply Z.pow_pos_nonneg; lia.
  - apply Rinv_0_lt_compat. apply IZR_lt. apply Z.pow_pos_nonneg; lia.
Qed.

Lemma ln_IZR_pow2 (n : Z) : (0 <= n)%Z -> ln (IZR (2 ^ n)) = IZR n * ln 2.
Proof.
  intros Hn. rewrite <- (Z2Nat.id n Hn) at 1. rewrite <- pow_IZR.
  rewrite ln_pow by lra. rewrite INR_IZR_INZ, Z2Nat.id by lia. reflexivity.
Qed.

Lemma ln_bpow (e : Z) : ln (bpow e) = IZR e * ln 2.
Proof.
  unfold bpow. destruct (0 <=? e)%Z eqn:He.
  - apply ln_IZR_pow2. lia.
  - rewrite ln_Rinv by (apply IZR_lt; apply Z.pow_pos_nonneg; lia).
    rewrite ln_IZR_pow2 by lia. rewrite opp_IZR. ring.
Qed.

Lemma mag_unique (x : R) (e : Z) :
  bpow e <= Rabs x < bpow (e + 1) -> mag x = e.
Proof.
  intros [Hlo Hhi]. unfold mag. symmetry. apply Int_part_spec.
  assert (H2 := ln2_pos). assert (Hb := bpow_pos e).
  assert (Hl1 : IZR e * ln 2 <= ln (Rabs x)).
  { rewrite <- ln_bpow. destruct Hlo as [Hlt|Heq].
    - left. apply ln_increasing; lra.
    - rewrite Heq. lra. }
  assert (Hl2 : ln (Rabs x) < (IZR e + 1) * ln 2).
  { rewrite <- plus_IZR, <- ln_bpow. apply ln_increasing; lra. }
  split.
  - apply Rmult_lt_reg_r with (ln 2); [exact H2|].
    unfold Rdiv, Rminus. rewrite Rmult_plus_distr_r, Rmult_assoc, Rinv_l by lra. lra.
  - apply Rmult_le_reg_r with (ln 2); [exact H2|].
    unfold Rdiv. rewrite Rmult_assoc, Rinv_l by lra. lra.
Qed.

Lemma mag_lt (x : R) (k : Z) : x <> 0 -> Rabs x < bpow k -> (mag x < k)%Z.
Proof.
  intros Hx Hlt. unfold mag.
  assert (H2 := ln2_pos).
  assert (Hl : ln (Rabs x) < IZR k * ln 2).
  { rewrite <- ln_bpow. apply ln_increasing; [now apply Rabs_pos_lt|exact Hlt]. }
  destruct (base_Int_part (ln (Rabs x) / ln 2)) as [Hip _].
  apply lt_IZR. eapply Rle_lt_trans; [exact Hip|].
  apply Rmult_lt_reg_r with (ln 2); [exact H2|].
  unfold Rdiv. rewrite Rmult_assoc, Rinv_l by lra. lra.
Qed.

Lemma Int_part_IZR (z : Z) : Int_part (IZR z) = z.
Proof. symmetry. apply Int_part_spec. lra. Qed.

Lemma rne_IZR (z : Z) : rne (IZR z) = z.
Proof.
  unfold rne. rewrite Int_part_IZR.
  destruct (Rlt_dec (IZR z - IZR z) (/ 2)) as [_|H]; [reflexivity|]. exfalso. lra.
Qed.

Lemma rne_small (y : R) : Rabs y < / 2 -> rne y = 0%Z.
Proof.
  intros Hy. unfold rne.
  destruct (Rle_dec 0 y) as [Hpos|Hneg].
  - rewrite Rabs_pos_eq in Hy by exact Hpos.
    assert (Hf : Int_part y = 0%Z) by (symmetry; apply Int_part_spec; simpl; lra).
    rewrite Hf. simpl.
    destruct (Rlt_dec (y - 0) (/ 2)) as [_|H]; [reflexivity|]. exfalso. lra.
  - rewrite Rabs_left in Hy by lra.
    assert (Hf : Int_part y = (-1)%Z) by (symmetry; apply Int_part_spec; simpl; lra).
    rewrite Hf.
    destruct (Rlt_dec (y - IZR (-1)) (/ 2)) as [H|_]; [exfalso; lra|].
    destruct (Rlt_dec (/ 2) (y - IZR (-1))) as [_|H]; [reflexivity|]. exfalso. lra.
Qed.

Lemma rne_bounds (y : R) : y - / 2 <= IZR (rne y) <= y + / 2.
Proof.
  unfold rne. destruct (base_Int_part y) as [H1 H2].
  set (f := Int_part y) in *.
  destruct (Rlt_dec (y - IZR f) (/ 2)) as [Ha|Ha]; [lra|].
  destruct (Rlt_dec (/ 2) (y - IZR f)) as [Hb|Hb].
  - rewrite plus_IZR. lra.
  - destruct (Z.even f); [lra|]. rewrite plus_IZR. lra.
Qed.

Lemma bpow_nonneg_eq (e : Z) : (0 <= e)%Z -> bpow e = IZR (2 ^ e).
Proof. intros He. unfold bpow. destruct (0 <=? e)%Z eqn:H; [reflexivity|lia]. Qed.

Lemma bpow_neg_eq (e : Z) : (e < 0)%Z -> bpow e = / IZR (2 ^ (- e)).
Proof. intros He. unfold bpow. destruct (0 <=? e)%Z eqn:H; [lia|reflexivity]. Qed.

Lemma bpow_scale (c : Z) : (c <= 0)%Z -> bpow c * IZR (2 ^ (- c)) = 1.
Proof.
  intros Hc. destruct (Z.eq_dec c 0) as [->|Hne].
  - rewrite bpow_nonneg_eq by lia. change (IZR 1 * IZR 1 = 1). lra.
  - rewrite bpow_neg_eq by lia. apply Rinv_l.
    apply not_0_IZR. assert (0 < 2 ^ (- c))%Z by (apply Z.pow_pos_nonneg; lia). lia.
Qed.

Lemma max_finite32 : max_finite binary32 = IZR ((2 ^ 24 - 1) * 2 ^ 104).
Proof.
  unfold max_finite, binary32. cbn [prec emax].
  rewrite bpow_nonneg_eq by lia. rewrite <- mult_IZR. reflexivity.
Qed.

(** An integer below [2^24] in size is a single precision number. *)
Lemma fround32_Z (z : Z) : (Z.abs z < 2 ^ 24)%Z -> fround binary32 (IZR z) = Finite (IZR z).
Proof.
  intros Hz.
  assert (Hr : round_real binary32 (IZR z) = IZR z).
  { unfold round_real. destruct (Req_EM_T (IZR z) 0) as [H0|Hne]; [now rewrite H0|].
    assert (Hz0 : z <> 0%Z) by (intros ->; now apply Hne).
    set (e := Z.log2 (Z.abs z)).
    assert (Hspec := Z.log2_spec (Z.abs z) ltac:(lia)). fold e in Hspec.
    assert (He0 : (0 <= e)%Z) by apply Z.log2_nonneg.
    assert (He23 : (e < 24)%Z) by (apply Z.log2_lt_pow2; lia).
    assert (Hmag : mag (IZR z) = e).
    { apply mag_unique. rewrite <- abs_IZR, !bpow_nonneg_eq by lia.
      split; [apply IZR_le|apply IZR_lt]; unfold Z.succ in Hspec; lia. }
    unfold cexp, binary32. cbn [prec emin]. rewrite Hmag.
    replace (Z.max (e - (24 - 1)) (-149)) with (e - 23)%Z by lia.
    set (c := (e - 23)%Z).
    assert (Hs := bpow_scale c ltac:(lia)). assert (Hb := bpow_pos c).
    replace (IZR z / bpow c) with (IZR (z * 2 ^ (- c))).
    - rewrite rne_IZR, mult_IZR. rewrite Rmult_assoc, (Rmult_comm (IZR (2 ^ (- c)))), Hs. lra.
    - rewrite mult_IZR. apply Rmult_eq_reg_r with (bpow c); [|lra].
      unfold Rdiv. rewrite !Rmult_assoc, Rinv_l, (Rmult_comm (IZR (2 ^ (- c)))), Hs by lra.
      reflexivity. }
  unfold fround. rewrite Hr, max_finite32, <- abs_IZR.
  destruct (Rlt_dec (IZR ((2 ^ 24 - 1) * 2 ^ 104)) (IZR (Z.abs z))) as [H|_]; [|reflexivity].
  apply lt_IZR in H. exfalso. lia.
Qed.

(** Below half of the smallest subnormal, single precision rounds to 0. *)
Lemma fround32_underflow (x : R) : Rabs x < bpow (-150) -> fround binary32 x = Finite 0.
Proof.
  intros Hx.
  assert (Hr : round_real binary32 x = 0).
  { unfold round_real. destruct (Req_EM_T x 0) as [_|Hne]; [reflexivity|].
    assert (Hmag := mag_lt x (-150) Hne Hx).
    unfold cexp, binary32. cbn [prec emin].
    replace (Z.max (mag x - (24 - 1)) (-149)) with (-149)%Z by lia.
    rewrite rne_small; [lra|].
    assert (Hb := bpow_pos (-149)).
    unfold Rdiv. rewrite Rabs_mult, (Rabs_pos_eq (/ bpow (-149)))
      by (left; now apply Rinv_0_lt_compat).
    apply Rmult_lt_reg_r with (bpow (-149)); [exact Hb|].
    rewrite Rmult_assoc, Rinv_l, Rmult_1_r by lra.
    eapply Rlt_le_trans; [exact Hx|].
    rewrite !bpow_neg_eq by lia. right.
    change (- -150)%Z with 150%Z. change (- -149)%Z with 149%Z.
    replace (2 ^ 150)%Z with (2 * 2 ^ 149)%Z by reflexivity.
    rewrite mult_IZR. field. apply not_0_IZR. lia. }
  unfold fround. rewrite Hr, Rabs_R0.
  destruct (Rlt_dec (max_finite binary32) 0) as [H|_]; [|reflexivity].
  exfalso. rewrite max_finite32 in H. apply lt_IZR in H. lia.
Qed.

Lemma Rabs_le_bounds (a b : R) : Rabs a <= b -> - b <= a <= b.
Proof. unfold Rabs. destruct (Rcase_abs a); lra. Qed.

(** Rounding moves a number by half a unit in the last place at most. *)
Lemma round_real_error (f : format) (x : R) :
  Rabs (round_real f x - x) <= bpow (cexp f x) / 2.
Proof.
  assert (Hb := bpow_pos (cexp f x)).
  unfold round_real. destruct (Req_EM_T x 0) as [->|Hne].
  - rewrite Rminus_0_r, Rabs_R0. lra.
  - set (c := cexp f x) in *. set (y := x / bpow c).
    assert (Hx : x = y * bpow c) by (unfold y; field; lra).
    destruct (rne_bounds y) as [H1 H2].
    rewrite Hx at 1.
    replace (IZR (rne y) * bpow c - y * bpow c) with ((IZR (rne y) - y) * bpow c) by ring.
    rewrite Rabs_mult, (Rabs_pos_eq (bpow c)) by lra.
    replace (bpow c / 2) with (/ 2 * bpow c) by (unfold Rdiv; ring).
    apply Rmult_le_compat_r; [lra|]. apply Rabs_le. lra.
Qed.

Lemma Rpower_10_IZR (n : nat) : Rpower 10 (INR n) = IZR (10 ^ Z.of_nat n).
Proof. rewrite Rpower_pow by lra. apply pow_IZR. Qed.

Lemma Rpower_10_50 : Rpower 10 50 = IZR (10 ^ 50).
Proof.
  replace 50 with (INR 50) by (rewrite INR_IZR_INZ; reflexivity).
  apply Rpower_10_IZR.
Qed.

Lemma Rpower_10_minus_50 : Rpower 10 (-50) = / IZR (10 ^ 50).
Proof.
  replace (-50) with (- (50)) by lra. rewrite Rpower_Ropp, Rpower_10_50. reflexivity.
Qed.

(** [pow(10, -50)] is a double below half of the smallest single precision
    subnormal: narrowed to [float] it is 0. *)
Lemma pow10_minus_50 : narrow (pow10 (Finite (-50))) = Finite 0.
Proof.
  cbn [pow10]. rewrite Rpower_10_minus_50.
  set (x := / IZR (10 ^ 50)).
  assert (Hx0 : 0 < x) by (apply Rinv_0_lt_compat; Zcmp).
  assert (Hlo : bpow (-167) <= x).
  { rewrite bpow_neg_eq by lia. apply Rinv_le_contravar; [Zcmp|Zcmp]. }
  assert (Hhi : x < bpow (-166)).
  { rewrite bpow_neg_eq by lia. apply Rinv_lt_contravar; [|Zcmp].
    rewrite <- mult_IZR. Zcmp. }
  assert (Hmag : mag x = (-167)%Z).
  { apply mag_unique. rewrite Rabs_pos_eq by lra. split; [exact Hlo|exact Hhi]. }
  assert (Herr := round_real_error binary64 x).
  unfold cexp in Herr. rewrite Hmag in Herr. cbn [prec emin binary64] in Herr.
  change (Z.max (-167 - (53 - 1)) (-1074)) with (-219)%Z in Herr.
  apply Rabs_le_bounds in Herr.
  assert (Hu : bpow (-219) / 2 < bpow (-166)).
  { rewrite !bpow_neg_eq by lia.
    apply Rmult_lt_reg_r with (IZR (2 ^ 220)); [Zcmp|].
    replace (/ IZR (2 ^ (- -219)) / 2 * IZR (2 ^ 220)) with 1.
    - replace (/ IZR (2 ^ (- -166)) * IZR (2 ^ 220)) with (IZR (2 ^ 54)); [Zcmp|].
      change (- -166)%Z with 166%Z. replace (2 ^ 220)%Z with (2 ^ 166 * 2 ^ 54)%Z by reflexivity.
      rewrite mult_IZR. field. apply not_0_IZR. vm_compute. discriminate.
    - change (- -219)%Z with 219%Z. replace (2 ^ 220)%Z with (2 ^ 219 * 2)%Z by reflexivity.
      rewrite mult_IZR. field. apply not_0_IZR. vm_compute. discriminate. }
  assert (H150 : 2 * bpow (-166) < bpow (-150)).
  { rewrite !bpow_neg_eq by lia.
    apply Rmult_lt_reg_r with (IZR (2 ^ 166)); [Zcmp|].
    change (- -166)%Z with 166%Z. change (- -150)%Z with 150%Z.
    rewrite Rmult_assoc, Rinv_l by (apply not_0_IZR; vm_compute; discriminate).
    replace (2 ^ 166)%Z with (2 ^ 150 * 2 ^ 16)%Z by reflexivity.
    rewrite mult_IZR, <- Rmult_assoc, Rinv_l by (apply not_0_IZR; vm_compute; discriminate).
    rewrite Rmult_1_l, Rmult_1_r. Zcmp. }
  assert (Hr : Rabs (round_real binary64 x) < bpow (-150)) by (apply Rabs_def1; lra).
  unfold fround.
  destruct (Rlt_dec (max_finite binary64) (Rabs (round_real binary64 x))) as [Hov|_].
  - exfalso. assert (H1 : 1 <= max_finite binary64).
    { unfold max_finite, binary64. cbn [prec emax]. rewrite bpow_nonneg_eq by lia.
      rewrite <- mult_IZR. Zcmp. }
    assert (bpow (-150) < 1).
    { rewrite bpow_neg_eq by lia. rewrite <- Rinv_1. apply Rinv_lt_contravar; [|Zcmp].
      rewrite Rmult_1_l. Zcmp. }
    lra.
  - cbn [narrow]. apply fround32_underflow. exact Hr.
Qed.

Lemma bpow_half (e : Z) : (0 < e)%Z -> bpow e / 2 = IZR (2 ^ (e - 1)).
Proof.
  intros He. rewrite bpow_nonneg_eq by lia.
  replace (2 ^ e)%Z with (2 * 2 ^ (e - 1))%Z.
  - rewrite mult_IZR. field.
  - rewrite <- Z.pow_succ_r by lia. f_equal. lia.
Qed.

(** [pow(10, 50)] is a double beyond the single precision range: narrowed
    to [float] it is infinite. *)
Lemma pow10_50 : narrow (pow10 (Finite 50)) = Inf false.
Proof.
  cbn [pow10]. rewrite Rpower_10_50.
  set (x := IZR (10 ^ 50)).
  assert (Hmag : mag x = 166%Z).
  { apply mag_unique. unfold x. rewrite <- abs_IZR, !bpow_nonneg_eq by lia. split; Zcmp. }
  assert (Herr := round_real_error binary64 x).
  unfold cexp in Herr. rewrite Hmag in Herr. cbn [prec emin binary64] in Herr.
  change (Z.max (166 - (53 - 1)) (-1074)) with 114%Z in Herr.
  rewrite bpow_half in Herr by lia. apply Rabs_le_bounds in Herr.
  set (r := round_real binary64 x) in *.
  assert (Hlo : IZR (2 ^ 166) <= r).
  { apply Rle_trans with (IZR (10 ^ 50 - 2 ^ (114 - 1))); [Zcmp|].
    rewrite minus_IZR. fold x. lra. }
  assert (Hhi : r < IZR (2 ^ 167)).
  { apply Rle_lt_trans with (IZR (10 ^ 50 + 2 ^ (114 - 1))); [|Zcmp].
    rewrite plus_IZR. fold x. lra. }
  assert (H0 : 0 < IZR (2 ^ 166)) by Zcmp.
  unfold fround at 1. fold r.
  destruct (Rlt_dec (max_finite binary64) (Rabs r)) as [Hov|_].
  { exfalso. rewrite Rabs_pos_eq in Hov by lra.
    assert (IZR (2 ^ 167) <= max_finite binary64); [|lra].
    unfold max_finite, binary64. cbn [prec emax]. rewrite bpow_nonneg_eq by lia.
    rewrite <- mult_IZR. Zcmp. }
  cbn [narrow].
  assert (Hmagr : mag r = 166%Z).
  { apply mag_unique. rewrite Rabs_pos_eq, !bpow_nonneg_eq by (lra || lia).
    split; [exact Hlo|exact Hhi]. }
  assert (Herr' := round_real_error binary32 r).
  unfold cexp in Herr'. rewrite Hmagr in Herr'. cbn [prec emin binary32] in Herr'.
  change (Z.max (166 - (24 - 1)) (-149)) with 143%Z in Herr'.
  rewrite bpow_half in Herr' by lia. apply Rabs_le_bounds in Herr'.
  unfold fround.
  assert (Hbig : max_finite binary32 < round_real binary32 r).
  { rewrite max_finite32.
    apply Rlt_le_trans with (IZR (2 ^ 166 - 2 ^ (143 - 1))); [Zcmp|].
    rewrite minus_IZR. lra. }
  assert (Hmax0 : 0 < max_finite binary32) by (rewrite max_finite32; Zcmp).
  rewrite Rabs_pos_eq by lra.
  destruct (Rlt_dec (max_finite binary32) (round_real binary32 r)) as [_|H]; [|contradiction].
  unfold is_neg. destruct (Rlt_dec r 0) as [H|_]; [exfalso; lra|reflexivity].
Qed.

(** The single precision operations on small integers are exact. *)
Lemma fround32_of (x : R) (z : Z) :
  x = IZR z -> (Z.abs z < 2 ^ 24)%Z -> fround binary32 x = Finite (IZR z).
Proof. intros ->. apply fround32_Z. Qed.

Lemma fadd32_Z (a b c : Z) :
  c = (a + b)%Z -> (Z.abs c < 2 ^ 24)%Z ->
  fadd binary32 (Finite (IZR a)) (Finite (IZR b)) = Finite (IZR c).
Proof. intros -> Hc. cbn [fadd]. apply fround32_of; [now rewrite plus_IZR|exact Hc]. Qed.

Lemma fsub32_Z (a b c : Z) :
  c = (a - b)%Z -> (Z.abs c < 2 ^ 24)%Z ->
  fsub binary32 (Finite (IZR a)) (Finite (IZR b)) = Finite (IZR c).
Proof.
  intros -> Hc. unfold fsub. cbn [fneg fadd].
  apply fround32_of; [now rewrite minus_IZR|exact Hc].
Qed.

Lemma fmul32_Z (a b c : Z) :
  c = (a * b)%Z -> (Z.abs c < 2 ^ 24)%Z ->
  fmul binary32 (Finite (IZR a)) (Finite (IZR b)) = Finite (IZR c).
Proof. intros -> Hc. cbn [fmul]. apply fround32_of; [now rewrite mult_IZR|exact Hc]. Qed.

Lemma fdiv32_Z (a b q : Z) :
  b <> 0%Z -> a = (q * b)%Z -> (Z.abs q < 2 ^ 24)%Z ->
  fdiv binary32 (Finite (IZR a)) (Finite (IZR b)) = Finite (IZR q).
Proof.
  intros Hb -> Hq. cbn [fdiv].
  destruct (Req_EM_T (IZR b) 0) as [H0|Hne]; [apply eq_IZR in H0; contradiction|].
  apply fround32_of; [|exact Hq]. rewrite mult_IZR. field. exact Hne.
Qed.

End Rounding.

(** ** The rating model *)

Section PlayerFacts.

Import Player.
Local Open Scope R_scope.

Variable p : Player.t.

Lemma Q_pos : 0 < Q.
Proof.
  unfold Q. apply Rdiv_lt_0_compat; [|lra].
  rewrite <- ln_1. apply ln_increasing; lra.
Qed.

Lemma get_g_pos (opp_rd : float) : 0 < get_g p opp_rd.
Proof.
  unfold get_g. apply Rdiv_lt_0_compat; [lra|].
  apply sqrt_lt_R0.
  assert (HQ := Q_pos). assert (HPI := PI_RGT_0).
  assert (0 <= 3 * Q * Q * opp_rd * opp_rd / PI / PI); [|lra].
  assert (Hu : 0 < / PI) by now apply Rinv_0_lt_compat.
  replace (3 * Q * Q * opp_rd * opp_rd / PI / PI)
    with (3 * ((Q * opp_rd) * (Q * opp_rd)) * (/ PI * / PI))
    by (unfold Rdiv; ring).
  assert (0 <= (Q * opp_rd) * (Q * opp_rd)) by nra.
  assert (0 < / PI * / PI) by nra.
  nra.
Qed.

Lemma get_expected_score_range (opp_rating opp_rd g : float) :
  0 < get_expected_score p opp_rating opp_rd g < 1.
Proof.
  unfold get_expected_score.
  set (e := Rpower 10 _).
  assert (He : 0 < e) by apply exp_pos.
  split.
  - apply Rdiv_lt_0_compat; lra.
  - apply Rmult_lt_reg_r with (1 + e); [lra|].
    unfold Rdiv. rewrite Rmult_assoc, Rinv_l by lra. lra.
Qed.

Lemma get_d2_pos (opp_rating opp_rd : float) : 0 < get_d2 p opp_rating opp_rd.
Proof.
  unfold get_d2.
  assert (HQ := Q_pos). assert (Hg := get_g_pos opp_rd).
  assert (He := get_expected_score_range opp_rating opp_rd (get_g p opp_rd)).
  generalize dependent (get_expected_score p opp_rating opp_rd (get_g p opp_rd)).
  generalize dependent (get_g p opp_rd). generalize dependent Q.
  intros q Hq g Hg e He.
  apply Rdiv_lt_0_compat; [lra|].
  repeat apply Rmult_lt_0_compat; lra.
Qed.

(** The learning rate [1 / (1/rd² + 1/d²)] lies strictly between 0 and rd². *)
Lemma precision_sum_bounds (d2 : float) :
  0 < rd_ p -> 0 < d2 ->
  0 < 1 / (1 / (rd_ p * rd_ p) + 1 / d2) < rd_ p * rd_ p.
Proof.
  intros Hrd Hd2.
  assert (Hsq : 0 < rd_ p * rd_ p) by nra.
  assert (Ha : 0 < 1 / (rd_ p * rd_ p)) by (apply Rdiv_lt_0_compat; lra).
  assert (Hb : 0 < 1 / d2) by (apply Rdiv_lt_0_compat; lra).
  split.
  - apply Rdiv_lt_0_compat; lra.
  - apply Rmult_lt_reg_r with (1 / (rd_ p * rd_ p) + 1 / d2); [lra|].
    unfold Rdiv at 1. rewrite Rmult_assoc, Rinv_l by lra.
    rewrite Rmult_plus_distr_l.
    replace (rd_ p * rd_ p * (1 / (rd_ p * rd_ p))) with 1 by (field; lra).
    nra.
Qed.

(** What [update] computes for the rd is below the current rd. *)
Lemma get_new_rd_lt (opp_rating opp_rd : float) :
  0 < rd_ p ->
  get_new_rd p (get_d2 p opp_rating opp_rd) < rd_ p.
Proof.
  intros Hrd. unfold get_new_rd.
  destruct (precision_sum_bounds (get_d2 p opp_rating opp_rd) Hrd
              (get_d2_pos opp_rating opp_rd)) as [H0 H1].
  rewrite <- (sqrt_square (rd_ p)) at 3 by lra.
  apply sqrt_lt_1_alt. lra.
Qed.

(** What [update] computes for the rating is above the current rating when
    the score beats the expectation. *)
Lemma get_new_rating_gt (score opp_rating opp_rd : float) :
  0 < rd_ p ->
  get_expected_score p opp_rating opp_rd (get_g p opp_rd) < score ->
  rating_ p < get_new_rating p score opp_rating opp_rd (get_d2 p opp_rating opp_rd).
Proof.
  intros Hrd Hs. unfold get_new_rating.
  destruct (precision_sum_bounds (get_d2 p opp_rating opp_rd) Hrd
              (get_d2_pos opp_rating opp_rd)) as [H0 _].
  assert (HQ := Q_pos). assert (Hg := get_g_pos opp_rd).
  set (k := 1 / (rd_ p * rd_ p) + 1 / get_d2 p opp_rating opp_rd) in *.
  generalize dependent (get_expected_score p opp_rating opp_rd (get_g p opp_rd)).
  generalize dependent (get_g p opp_rd). generalize dependent Q.
  intros q Hq g Hg e He.
  assert (Hk : 0 < q / k).
  { unfold Rdiv in *. rewrite Rmult_1_l in H0. apply Rmult_lt_0_compat; lra. }
  assert (0 < q / k * g * (score - e)).
  { apply Rmult_lt_0_compat; [apply Rmult_lt_0_compat|]; lra. }
  lra.
Qed.

(** [update] leaves the stored rating and rd as they were and counts the
    comparison. *)
Lemma update_rating (score opp_rating opp_rd : float) :
  get_rating (update p score opp_rating opp_rd) = get_rating p.
Proof. reflexivity. Qed.

Lemma update_rd (score opp_rating opp_rd : float) :
  get_rd (update p score opp_rating opp_rd) = get_rd p.
Proof. reflexivity. Qed.

Lemma update_id (score opp_rating opp_rd : float) :
  id_ (update p score opp_rating opp_rd) = id_ p.
Proof. reflexivity. Qed.

Lemma update_num_comps (score opp_rating opp_rd : float) :
  get_num_comps (update p score opp_rating opp_rd) = to_int (get_num_comps p + 1).
Proof. reflexivity. Qed.

End PlayerFacts.

Lemma apply_updates_rd (p : Player.t) (us : list (float * float * float)) :
  Player.get_rd (apply_updates p us) = Player.get_rd p.
Proof.
  unfold apply_updates. revert p.
  induction us as [|[[sc r] d] us IH]; intros p; simpl.
  - reflexivity.
  - rewrite IH. apply update_rd.
Qed.

Lemma apply_updates_rating (p : Player.t) (us : list (float * float * float)) :
  Player.get_rating (apply_updates p us) = Player.get_rating p.
Proof.
  unfold apply_updates. revert p.
  induction us as [|[[sc r] d] us IH]; intros p; simpl.
  - reflexivity.
  - rewrite IH. apply update_rating.
Qed.

(** C1: in the scenario [update(score=1.0, opp_rating=0, opp_rd=350)] on any
    player with [(rating=0, rd=350)], the update algorithm computes a
    [new_rating] strictly above the rating and a [new_rd] strictly below the
    rd, and yet [get_rating()] and [get_rd()] return after the call what they
    returned before it: the computed values are not committed. *)
Theorem update_scenario_not_committed (id num_comps : Z) :
  let p := Player.mk id 0%R 350%R num_comps in
  let d2 := Player.get_d2 p 0%R 350%R in
  let p' := Player.update p 1%R 0%R 350%R in
  (Player.get_rating p < Player.get_new_rating p 1 0 350 d2)%R
  /\ (Player.get_new_rd p d2 < Player.get_rd p)%R
  /\ Player.get_rating p' = Player.get_rating p
  /\ Player.get_rd p' = Player.get_rd p
  /\ ~ (Player.get_rating p < Player.get_rating p')%R
  /\ ~ (Player.get_rd p' < Player.get_rd p)%R.
Proof.
  intros p d2 p'. subst p'.
  assert (Hrd : (0 < Player.rd_ p)%R) by (simpl; lra).
  split; [|split; [|split; [|split; [|split]]]].
  - apply get_new_rating_gt; [exact Hrd|].
    apply get_expected_score_range.
  - apply get_new_rd_lt. exact Hrd.
  - reflexivity.
  - reflexivity.
  - rewrite update_rating. apply Rlt_irrefl.
  - rewrite update_rd. apply Rlt_irrefl.
Qed.

(** C3: whatever updates a player has been through, one more [update] leaves
    its rd exactly where it was when the player was constructed, so the rd is
    never strictly below its value before the update, also when the
    opponent's rd is finite and positive and the update algorithm computes a
    smaller one. *)
Theorem update_rd_not_reduced
    (p : Player.t) (us : list (float * float * float))
    (score opp_rating opp_rd : float) :
  let q := apply_updates p us in
  Player.get_rd (Player.update q score opp_rating opp_rd) = Player.get_rd p
  /\ ~ (Player.get_rd (Player.update q score opp_rating opp_rd) < Player.get_rd q)%R.
Proof.
  intros q. split.
  - rewrite update_rd. apply apply_updates_rd.
  - rewrite update_rd. apply Rlt_irrefl.
Qed.

(** ** The selection scan *)

Section Scan.

Variable ok : Z -> Player.t -> bool.
Variable val : Player.t -> float.

(** The outcome of a scan. Either nothing passed [ok] with a value above
    the starting maximum and the starting id comes back, or the scan
    returns the first position whose value is the greatest of all that
    pass [ok]. *)
Lemma scan_spec (ps : list Player.t) : forall (i max_id : Z) (max_val : float),
  0 <= i -> i + Z.of_nat (length ps) <= INT_MAX + 1 ->
  (scan ok val ps i max_id max_val = max_id
   /\ forall (k : nat) (q : Player.t),
        ps !! k = Some q -> ok (i + Z.of_nat k) q = true -> (val q <= max_val)%R)
  \/ (exists (k : nat) (q : Player.t),
        ps !! k = Some q
        /\ scan ok val ps i max_id max_val = i + Z.of_nat k
        /\ ok (i + Z.of_nat k) q = true
        /\ (max_val < val q)%R
        /\ (forall (k' : nat) (q' : Player.t),
              ps !! k' = Some q' -> ok (i + Z.of_nat k') q' = true ->
              (val q' <= val q)%R)
        /\ (forall (k' : nat) (q' : Player.t),
              (k' < k)%nat -> ps !! k' = Some q' -> ok (i + Z.of_nat k') q' = true ->
              (val q' < val q)%R)).
Proof.
  induction ps as [|p ps' IH]; intros i max_id max_val Hi Hlen.
  - left. split; [reflexivity|]. intros k q Hk. discriminate.
  - cbn [scan]. cbn [length] in Hlen.
    destruct (ok i p && float_gt (val p) max_val) eqn:Hc.
    + apply andb_true_iff in Hc as [Hok Hgt]. apply float_gt_true in Hgt.
      rewrite to_int_id by (unfold INT_MIN, INT_MAX in *; lia).
      destruct (IH (i + 1) i (val p)) as [[Hr Hall]|(k & q & Hk & Hr & Hokq & Hlt & Hmax & Hfirst)];
        [lia|lia| |].
      * right. exists 0%nat, p. rewrite Hr, Z.add_0_r.
        split; [reflexivity|]. split; [reflexivity|]. split; [exact Hok|].
        split; [exact Hgt|]. split.
        -- intros [|k'] q' Hk' Hok'.
           ++ injection Hk' as <-. lra.
           ++ apply (Hall k' q' Hk'). now replace (i + 1 + Z.of_nat k') with (i + Z.of_nat (S k')) by lia.
        -- intros k' q' Hlt. lia.
      * right. exists (S k), q. rewrite Hr.
        replace (i + 1 + Z.of_nat k) with (i + Z.of_nat (S k)) in * by lia.
        split; [exact Hk|]. split; [reflexivity|]. split; [exact Hokq|].
        split; [lra|]. split.
        -- intros [|k'] q' Hk' Hok'.
           ++ injection Hk' as <-. lra.
           ++ apply (Hmax k' q' Hk'). now replace (i + 1 + Z.of_nat k') with (i + Z.of_nat (S k')) by lia.
        -- intros [|k'] q' Hlt' Hk' Hok'.
           ++ injection Hk' as <-. lra.
           ++ apply (Hfirst k' q'); [lia|exact Hk'|].
              now replace (i + 1 + Z.of_nat k') with (i + Z.of_nat (S k')) by lia.
    + assert (Hhead : ok (i + Z.of_nat 0) p = true -> (val p <= max_val)%R).
      { rewrite Z.add_0_r. intros Hok. rewrite Hok in Hc. cbn in Hc.
        now apply float_gt_false. }
      destruct (IH (i + 1) max_id max_val) as [[Hr Hall]|(k & q & Hk & Hr & Hokq & Hlt & Hmax & Hfirst)];
        [lia|lia| |].
      * left. split; [exact Hr|].
        intros [|k'] q' Hk' Hok'.
        -- injection Hk' as <-. now apply Hhead.
        -- apply (Hall k' q' Hk'). now replace (i + 1 + Z.of_nat k') with (i + Z.of_nat (S k')) by lia.
      * right. exists (S k), q. rewrite Hr.
        replace (i + 1 + Z.of_nat k) with (i + Z.of_nat (S k)) in * by lia.
        split; [exact Hk|]. split; [reflexivity|]. split; [exact Hokq|].
        split; [exact Hlt|]. split.
        -- intros [|k'] q' Hk' Hok'.
           ++ injection Hk' as <-. apply Hhead in Hok'. lra.
           ++ apply (Hmax k' q' Hk'). now replace (i + 1 + Z.of_nat k') with (i + Z.of_nat (S k')) by lia.
        -- intros [|k'] q' Hlt' Hk' Hok'.
           ++ injection Hk' as <-. apply Hhead in Hok'. lra.
           ++ apply (Hfirst k' q'); [lia|exact Hk'|].
              now replace (i + 1 + Z.of_nat k') with (i + Z.of_nat (S k')) by lia.
Qed.

End Scan.

(** ** The selection scan on single precision values *)

Lemma fgt_irrefl (a : fp) : fgt a a = false.
Proof.
  destruct a as [x|[|]|]; cbn; try reflexivity. apply float_gt_false. lra.
Qed.

Lemma fgt_trans (a b c : fp) : fgt a b = true -> fgt b c = true -> fgt a c = true.
Proof.
  destruct a as [x|[|]|], b as [y|[|]|], c as [z|[|]|]; cbn;
    try discriminate; try reflexivity.
  rewrite !float_gt_true. lra.
Qed.

Lemma fgt_asym (a b : fp) : fgt a b = true -> fgt b a = false.
Proof.
  destruct a as [x|[|]|], b as [y|[|]|]; cbn; try discriminate; try reflexivity.
  rewrite float_gt_true, float_gt_false. lra.
Qed.

(** What is not above [m] is below whatever is above [m], or is NaN. *)
Lemma fgt_below (v m w : fp) :
  fgt v m = false -> fgt w m = true -> fgt w v = true \/ v = NaN.
Proof.
  destruct v as [x|[|]|], m as [y|[|]|], w as [z|[|]|]; cbn;
    try discriminate; auto.
  rewrite float_gt_false, !float_gt_true. left. lra.
Qed.

Section ScanFp.

Variable ok : Z -> Player.t -> bool.
Variable val : Player.t -> fp.

(** The outcome of a scan. Either nothing passed [ok] with a value above
    the starting maximum and the starting id comes back, or the scan
    returns a position whose value is above the starting maximum, is
    exceeded by none that pass [ok], and is above every such value at a
    lower position that is not NaN. *)
Lemma scan_fp_spec (ps : list Player.t) : forall (i max_id : Z) (max_val : fp),
  0 <= i -> i + Z.of_nat (length ps) <= INT_MAX + 1 ->
  (scan_fp ok val ps i max_id max_val = max_id
   /\ forall (k : nat) (q : Player.t),
        ps !! k = Some q -> ok (i + Z.of_nat k) q = true -> fgt (val q) max_val = false)
  \/ (exists (k : nat) (q : Player.t),
        ps !! k = Some q
        /\ scan_fp ok val ps i max_id max_val = i + Z.of_nat k
        /\ ok (i + Z.of_nat k) q = true
        /\ fgt (val q) max_val = true
        /\ (forall (k' : nat) (q' : Player.t),
              ps !! k' = Some q' -> ok (i + Z.of_nat k') q' = true ->
              fgt (val q') (val q) = false)
        /\ (forall (k' : nat) (q' : Player.t),
              (k' < k)%nat -> ps !! k' = Some q' -> ok (i + Z.of_nat k') q' = true ->
              fgt (val q) (val q') = true \/ val q' = NaN)).
Proof.
  induction ps as [|p ps' IH]; intros i max_id max_val Hi Hlen.
  - left. split; [reflexivity|]. intros k q Hk. discriminate.
  - cbn [scan_fp]. cbn [length] in Hlen.
    destruct (ok i p && fgt (val p) max_val) eqn:Hc.
    + apply andb_true_iff in Hc as [Hok Hgt].
      rewrite to_int_id by (unfold INT_MIN, INT_MAX in *; lia).
      destruct (IH (i + 1) i (val p)) as [[Hr Hall]|(k & q & Hk & Hr & Hokq & Hlt & Hmax & Hfirst)];
        [lia|lia| |].
      * right. exists 0%nat, p. rewrite Hr, Z.add_0_r.
        split; [reflexivity|]. split; [reflexivity|]. split; [exact Hok|].
        split; [exact Hgt|]. split.
        -- intros [|k'] q' Hk' Hok'.
           ++ injection Hk' as <-. apply fgt_irrefl.
           ++ apply (Hall k' q' Hk'). now replace (i + 1 + Z.of_nat k') with (i + Z.of_nat (S k')) by lia.
        -- intros k' q' Hlt. lia.
      * right. exists (S k), q. rewrite Hr.
        replace (i + 1 + Z.of_nat k) with (i + Z.of_nat (S k)) in * by lia.
        split; [exact Hk|]. split; [reflexivity|]. split; [exact Hokq|].
        split; [exact (fgt_trans _ _ _ Hlt Hgt)|]. split.
        -- intros [|k'] q' Hk' Hok'.
           ++ injection Hk' as <-. now apply fgt_asym.
           ++ apply (Hmax k' q' Hk'). now replace (i + 1 + Z.of_nat k') with (i + Z.of_nat (S k')) by lia.
        -- intros [|k'] q' Hlt' Hk' Hok'.
           ++ injection Hk' as <-. left. exact Hlt.
           ++ apply (Hfirst k' q'); [lia|exact Hk'|].
              now replace (i + 1 + Z.of_nat k') with (i + Z.of_nat (S k')) by lia.
    + assert (Hhead : ok (i + Z.of_nat 0) p = true -> fgt (val p) max_val = false).
      { rewrite Z.add_0_r. intros Hok. rewrite Hok in Hc. exact Hc. }
      destruct (IH (i + 1) max_id max_val) as [[Hr Hall]|(k & q & Hk & Hr & Hokq & Hlt & Hmax & Hfirst)];
        [lia|lia| |].
      * left. split; [exact Hr|].
        intros [|k'] q' Hk' Hok'.
        -- injection Hk' as <-. now apply Hhead.
        -- apply (Hall k' q' Hk'). now replace (i + 1 + Z.of_nat k') with (i + Z.of_nat (S k')) by lia.
      * right. exists (S k), q. rewrite Hr.
        replace (i + 1 + Z.of_nat k) with (i + Z.of_nat (S k)) in * by lia.
        split; [exact Hk|]. split; [reflexivity|]. split; [exact Hokq|].
        split; [exact Hlt|]. split.
        -- intros [|k'] q' Hk' Hok'.
           ++ injection Hk' as <-. apply Hhead in Hok'.
              destruct (fgt (val p) (val q)) eqn:Hpq; [|reflexivity].
              rewrite (fgt_trans _ _ _ Hpq Hlt) in Hok'. discriminate.
           ++ apply (Hmax k' q' Hk'). now replace (i + 1 + Z.of_nat k') with (i + Z.of_nat (S k')) by lia.
        -- intros [|k'] q' Hlt' Hk' Hok'.
           ++ injection Hk' as <-. apply Hhead in Hok'.
              exact (fgt_below _ _ _ Hok' Hlt).
           ++ apply (Hfirst k' q'); [lia|exact Hk'|].
              now replace (i + 1 + Z.of_nat k') with (i + Z.of_nat (S k')) by lia.
Qed.

End ScanFp.

(** ** The two selection loops are scans *)

Section Selection.

Import LowVolRanker.

Lemma get_best_player_loop_scan (avoid ps : list Player.t) :
  forall (i max_id : Z) (max_rd : float),
  get_best_player_loop avoid ps i max_id max_rd
  = scan (fun i _ => find_is_end avoid i) Player.get_rd ps i max_id max_rd.
Proof.
  induction ps as [|p ps' IH]; intros i max_id max_rd; cbn [get_best_player_loop scan].
  - reflexivity.
  - rewrite andb_comm, !IH. reflexivity.
Qed.

(** With [players_[id]] in bounds the opponent loop never faults. *)
Lemma get_best_opp_loop_scan (avoid all ps : list Player.t) (id : Z) (me : Player.t) :
  vector_at all (to_size_t id) = Some me ->
  forall (i max_id : Z) (max_var : fp),
  get_best_opp_loop avoid all id ps i max_id max_var
  = Some (scan_fp (fun i _ => negb (i =? to_size_t id) && find_is_end avoid i)
            (var_against me) ps i max_id max_var).
Proof.
  intros Hme.
  induction ps as [|p ps' IH]; intros i max_id max_var; cbn [get_best_opp_loop scan_fp].
  - reflexivity.
  - destruct (negb (i =? to_size_t id) && find_is_end avoid i); cbn [andb].
    + rewrite Hme. cbn [mbind option_bind]. fold (var_against me p). rewrite !IH.
      now destruct (fgt _ max_var).
    + apply IH.
Qed.

(** With every position from [i] on excluded, the opponent loop reads no
    player at all. *)
Lemma get_best_opp_loop_excluded (avoid all ps : list Player.t) (id : Z) :
  forall (i max_id : Z) (max_var : fp),
  (forall k : nat, (k < length ps)%nat ->
     negb (i + Z.of_nat k =? to_size_t id) && find_is_end avoid (i + Z.of_nat k) = false) ->
  get_best_opp_loop avoid all id ps i max_id max_var = Some max_id.
Proof.
  induction ps as [|p ps' IH]; intros i max_id max_var Hex; cbn [get_best_opp_loop].
  - reflexivity.
  - assert (H0 := Hex 0%nat). rewrite Z.add_0_r in H0.
    rewrite H0 by (cbn; lia). apply IH.
    intros k Hk. replace (i + 1 + Z.of_nat k) with (i + Z.of_nat (S k)) by lia.
    apply Hex. cbn. lia.
Qed.

Variable s : LowVolRanker.t.
Hypothesis Hsize : Z.of_nat (length (players_ s)) <= INT_MAX.

Lemma vector_at_players (j : Z) (q : Player.t) :
  vector_at (players_ s) j = Some q <-> 0 <= j /\ players_ s !! Z.to_nat j = Some q.
Proof. apply vector_at_Some. Qed.

Lemma eligible_lookup (j : Z) :
  eligible s j -> exists q, vector_at (players_ s) j = Some q.
Proof.
  intros [Hj _]. destruct (lookup_lt_is_Some_2 (players_ s) (Z.to_nat j)) as [q Hq]; [lia|].
  exists q. apply vector_at_Some. split; [lia|exact Hq].
Qed.

(** What [get_best_player] returns, in every state: [-1] when no eligible
    player has an rd above 0, and otherwise the first position among the
    eligible players of greatest rd. *)
Lemma get_best_player_spec :
  (get_best_player s = -1
   /\ forall (j : Z) (q : Player.t),
        eligible s j -> vector_at (players_ s) j = Some q -> (Player.get_rd q <= 0)%R)
  \/ (exists q : Player.t,
        vector_at (players_ s) (get_best_player s) = Some q
        /\ eligible s (get_best_player s)
        /\ (0 < Player.get_rd q)%R
        /\ (forall (j : Z) (q' : Player.t),
              eligible s j -> vector_at (players_ s) j = Some q' ->
              (Player.get_rd q' <= Player.get_rd q)%R)
        /\ (forall (j : Z) (q' : Player.t),
              j < get_best_player s ->
              eligible s j -> vector_at (players_ s) j = Some q' ->
              (Player.get_rd q' < Player.get_rd q)%R)).
Proof.
  unfold get_best_player. rewrite get_best_player_loop_scan.
  destruct (scan_spec (fun i _ => find_is_end (avoid_ s) i) Player.get_rd
              (players_ s) 0 (-1) 0%R)
    as [[Hr Hall]|(k & q & Hk & Hr & Hok & Hlt & Hmax & Hfirst)]; [lia|lia| |].
  - left. split; [exact Hr|].
    intros j q' [Hj Hav] [_ Hq']%vector_at_Some.
    apply (Hall (Z.to_nat j) q' Hq'). now rewrite Z.add_0_l, Z2Nat.id by lia.
  - right. exists q. rewrite Hr, Z.add_0_l in *.
    assert (Hklt := lookup_lt_Some _ _ _ Hk).
    split; [|split; [|split; [|split]]].
    + apply vector_at_Some. rewrite Nat2Z.id. split; [lia|exact Hk].
    + split; [lia|exact Hok].
    + exact Hlt.
    + intros j q' [Hj Hav] [_ Hq']%vector_at_Some.
      apply (Hmax (Z.to_nat j) q' Hq'). now rewrite Z.add_0_l, Z2Nat.id by lia.
    + intros j q' Hjk [Hj Hav] [_ Hq']%vector_at_Some.
      apply (Hfirst (Z.to_nat j) q'); [lia|exact Hq'|].
      now rewrite Z.add_0_l, Z2Nat.id by lia.
Qed.

End Selection.

(** ** The second slot *)

Section Opponent.

Import LowVolRanker.

Variable s : LowVolRanker.t.
Hypothesis Hsize : Z.of_nat (length (players_ s)) <= INT_MAX.

Lemma candidate_ok (id j : Z) :
  0 <= id < Z.of_nat (length (players_ s)) ->
  0 <= j < Z.of_nat (length (players_ s)) ->
  negb (j =? to_size_t id) && find_is_end (avoid_ s) j = true <-> candidate s id j.
Proof.
  intros Hid Hj. unfold candidate, eligible.
  rewrite to_size_t_id by (unfold INT_MAX in Hsize; lia).
  rewrite andb_true_iff, negb_true_iff, Z.eqb_neq. tauto.
Qed.

(** Without a first entity the opponent loop is harmless as long as no
    position is eligible. *)
Lemma get_best_opp_sentinel :
  (forall j : Z, ~ eligible s j) -> get_best_opp s (-1) = Some (-1).
Proof.
  intros Hnone. unfold get_best_opp. apply get_best_opp_loop_excluded.
  intros k Hk. rewrite Z.add_0_l.
  destruct (find_is_end (avoid_ s) (Z.of_nat k)) eqn:Hf.
  - exfalso. apply (Hnone (Z.of_nat k)). split; [lia|exact Hf].
  - apply andb_false_r.
Qed.

(** What [get_best_opp] returns for a first entity inside the collection:
    [-1] when no candidate has a variance above 0, and otherwise a candidate
    whose variance is above 0, is exceeded by no candidate's, and is above
    that of every candidate at a lower position whose variance is not
    NaN. *)
Lemma get_best_opp_spec (id : Z) (me : Player.t) :
  vector_at (players_ s) id = Some me ->
  exists b : Z,
    get_best_opp s id = Some b
    /\ ((b = -1
         /\ forall (j : Z) (q : Player.t),
              candidate s id j -> vector_at (players_ s) j = Some q ->
              fgt (var_against me q) (Finite 0) = false)
        \/ (exists q : Player.t,
              vector_at (players_ s) b = Some q
              /\ candidate s id b
              /\ fgt (var_against me q) (Finite 0) = true
              /\ (forall (j : Z) (q' : Player.t),
                    candidate s id j -> vector_at (players_ s) j = Some q' ->
                    fgt (var_against me q') (var_against me q) = false)
              /\ (forall (j : Z) (q' : Player.t),
                    j < b ->
                    candidate s id j -> vector_at (players_ s) j = Some q' ->
                    fgt (var_against me q) (var_against me q') = true
                    \/ var_against me q' = NaN))).
Proof.
  intros Hme.
  assert (Hid := vector_at_lt _ _ _ Hme).
  assert (Hme' : vector_at (players_ s) (to_size_t id) = Some me).
  { rewrite to_size_t_id by (unfold INT_MAX in Hsize; lia). exact Hme. }
  unfold get_best_opp. rewrite (get_best_opp_loop_scan _ _ _ _ _ Hme').
  eexists. split; [reflexivity|].
  destruct (scan_fp_spec (fun i _ => negb (i =? to_size_t id) && find_is_end (avoid_ s) i)
              (var_against me) (players_ s) 0 (-1) (Finite 0))
    as [[Hr Hall]|(k & q & Hk & Hr & Hok & Hlt & Hmax & Hfirst)]; [lia|lia| |].
  - left. split; [exact Hr|].
    intros j q Hc [_ Hq]%vector_at_Some.
    assert (Hj : 0 <= j < Z.of_nat (length (players_ s))) by apply Hc.
    apply candidate_ok in Hc; [|lia|lia].
    apply (Hall (Z.to_nat j) q Hq). now rewrite Z.add_0_l, Z2Nat.id by lia.
  - right. exists q. rewrite Hr, Z.add_0_l in *.
    assert (Hklt := lookup_lt_Some _ _ _ Hk).
    split; [|split; [|split; [|split]]].
    + apply vector_at_Some. rewrite Nat2Z.id. split; [lia|exact Hk].
    + apply candidate_ok; [lia|lia|exact Hok].
    + exact Hlt.
    + intros j q' Hc [_ Hq']%vector_at_Some.
      assert (Hj : 0 <= j < Z.of_nat (length (players_ s))) by apply Hc.
      apply candidate_ok in Hc; [|lia|lia].
      apply (Hmax (Z.to_nat j) q' Hq'). now rewrite Z.add_0_l, Z2Nat.id by lia.
    + intros j q' Hjb Hc [_ Hq']%vector_at_Some.
      assert (Hj : 0 <= j < Z.of_nat (length (players_ s))) by apply Hc.
      apply candidate_ok in Hc; [|lia|lia].
      apply (Hfirst (Z.to_nat j) q'); [lia|exact Hq'|].
      now rewrite Z.add_0_l, Z2Nat.id by lia.
Qed.

End Opponent.

(** ** Selection: the first and the second slot *)

(** C5: in a state whose eligible players all have a positive rd (every
    reachable state is one, see [reachable_rd]), [get_next_comp] returns and
    its first slot is [-1] when no player is eligible (in particular when
    there are no players), and is otherwise an eligible player whose rd no
    eligible player exceeds and that every eligible player at a lower
    position stays strictly below: the highest rd, the first position among
    ties. *)
Theorem first_slot_highest_rd (s : LowVolRanker.t) :
  Z.of_nat (length (LowVolRanker.players_ s)) <= INT_MAX ->
  (forall (j : Z) (q : Player.t),
     eligible s j -> vector_at (LowVolRanker.players_ s) j = Some q ->
     (0 < Player.get_rd q)%R) ->
  exists b : Z,
    LowVolRanker.get_next_comp s = Some (LowVolRanker.get_best_player s, b)
    /\ ((forall j : Z, ~ eligible s j) -> LowVolRanker.get_best_player s = -1)
    /\ ((exists j : Z, eligible s j) ->
        exists q : Player.t,
          vector_at (LowVolRanker.players_ s) (LowVolRanker.get_best_player s) = Some q
          /\ eligible s (LowVolRanker.get_best_player s)
          /\ (forall (j : Z) (q' : Player.t),
                eligible s j -> vector_at (LowVolRanker.players_ s) j = Some q' ->
                (Player.get_rd q' <= Player.get_rd q)%R)
          /\ (forall (j : Z) (q' : Player.t),
                j < LowVolRanker.get_best_player s ->
                eligible s j -> vector_at (LowVolRanker.players_ s) j = Some q' ->
                (Player.get_rd q' < Player.get_rd q)%R)).
Proof.
  intros Hsize Hpos. unfold LowVolRanker.get_next_comp. cbv zeta.
  destruct (get_best_player_spec s Hsize)
    as [[Ha Hall]|(q & Hq & Hel & Hrd & Hmax & Hfirst)].
  - assert (Hnone : forall j : Z, ~ eligible s j).
    { intros j Hj. destruct (eligible_lookup s j Hj) as [q Hq].
      specialize (Hall j q Hj Hq). specialize (Hpos j q Hj Hq). lra. }
    exists (-1). rewrite Ha, (get_best_opp_sentinel s Hnone).
    split; [reflexivity|]. split; [reflexivity|].
    intros [j Hj]. destruct (Hnone j Hj).
  - destruct (get_best_opp_spec s Hsize _ q Hq) as (b & Hb & _).
    exists b. rewrite Hb. split; [reflexivity|]. split.
    + intros Hnone. destruct (Hnone _ Hel).
    + intros _. exists q. repeat split; try assumption; apply Hel.
Qed.

(** X25: in any state with at most [INT_MAX] players in which a first
    entity was selected, [get_next_comp] returns; its second slot is [-1]
    exactly when no eligible player other than the first has a single
    precision variance above 0 against the first entity's model, and is
    otherwise such a player whose variance no candidate's exceeds and that
    is above the variance of every candidate at a lower position, unless
    that one is NaN. *)
Theorem second_slot_greatest_variance (s : LowVolRanker.t) :
  Z.of_nat (length (LowVolRanker.players_ s)) <= INT_MAX ->
  LowVolRanker.get_best_player s <> -1 ->
  exists (b : Z) (me : Player.t),
    LowVolRanker.get_next_comp s = Some (LowVolRanker.get_best_player s, b)
    /\ vector_at (LowVolRanker.players_ s) (LowVolRanker.get_best_player s) = Some me
    /\ (b = -1 <->
        forall (j : Z) (q : Player.t),
          candidate s (LowVolRanker.get_best_player s) j ->
          vector_at (LowVolRanker.players_ s) j = Some q ->
          fgt (var_against me q) (Finite 0) = false)
    /\ (b <> -1 ->
        exists q : Player.t,
          vector_at (LowVolRanker.players_ s) b = Some q
          /\ candidate s (LowVolRanker.get_best_player s) b
          /\ fgt (var_against me q) (Finite 0) = true
          /\ (forall (j : Z) (q' : Player.t),
                candidate s (LowVolRanker.get_best_player s) j ->
                vector_at (LowVolRanker.players_ s) j = Some q' ->
                fgt (var_against me q') (var_against me q) = false)
          /\ (forall (j : Z) (q' : Player.t),
                j < b ->
                candidate s (LowVolRanker.get_best_player s) j ->
                vector_at (LowVolRanker.players_ s) j = Some q' ->
                fgt (var_against me q) (var_against me q') = true
                \/ var_against me q' = NaN)).
Proof.
  intros Hsize Hsel. unfold LowVolRanker.get_next_comp. cbv zeta.
  destruct (get_best_player_spec s Hsize)
    as [[Ha _]|(me & Hme & Hel & Hrd & _)]; [contradiction|].
  destruct (get_best_opp_spec s Hsize _ me Hme)
    as (b & Hb & [[Hb1 Hnone]|(q & Hq & Hc & Hgt & Hmax & Hfirst)]).
  - exists b, me. rewrite Hb. split; [reflexivity|]. split; [exact Hme|].
    split; [split; [intros _; exact Hnone|intros _; exact Hb1]|].
    intros H. contradiction.
  - assert (Hb1 : b <> -1) by (destruct Hc as [[Hlt _] _]; lia).
    exists b, me. rewrite Hb. split; [reflexivity|]. split; [exact Hme|]. split.
    + split; [contradiction|]. intros Hnone.
      rewrite (Hnone b q Hc Hq) in Hgt. discriminate.
    + intros _. exists q. repeat split; try assumption; apply Hc.
Qed.

(** ** Calls and what they preserve *)

Section Calls.

Import LowVolRanker.

Lemma update_player_Some (ps ps' : list Player.t) (a b : Z) (sc : float) :
  update_player ps a b sc = Some ps' <->
  exists me opp : Player.t,
    vector_at ps (to_size_t a) = Some me
    /\ vector_at ps (to_size_t b) = Some opp
    /\ ps' = <[Z.to_nat (to_size_t a) :=
                Player.update me sc (Player.get_rating opp) (Player.get_rd opp)]> ps.
Proof.
  unfold update_player, update_args. split.
  - destruct (vector_at ps (to_size_t a)) as [me|]; [|discriminate].
    destruct (vector_at ps (to_size_t b)) as [opp|]; [|discriminate].
    cbn. intros [= <-]. exists me, opp. auto.
  - intros (me & opp & -> & -> & ->). reflexivity.
Qed.

Lemma update_player_length (ps ps' : list Player.t) (a b : Z) (sc : float) :
  update_player ps a b sc = Some ps' -> length ps' = length ps.
Proof.
  intros (me & opp & _ & _ & ->)%update_player_Some. apply length_insert.
Qed.

(** A property of players that [update] keeps is kept by the vector. *)
Lemma update_player_Forall (P : Player.t -> Prop) (ps ps' : list Player.t)
    (a b : Z) (sc : float) :
  (forall q sc' r d, P q -> P (Player.update q sc' r d)) ->
  update_player ps a b sc = Some ps' -> Forall P ps -> Forall P ps'.
Proof.
  intros Hupd (me & opp & Hme & _ & ->)%update_player_Some Hall.
  apply Forall_insert; [exact Hall|].
  apply Hupd. apply vector_at_Some in Hme as [_ Hme].
  exact (proj1 (Forall_lookup P ps) Hall _ _ Hme).
Qed.

Lemma receive_comp_Some (s s' : t) (a b : Z) (sc : float) :
  receive_comp s a b sc true = Some s' <->
  exists players1 players2 : list Player.t,
    update_player (players_ s) a b sc = Some players1
    /\ update_player players1 b a (1 - sc)%R = Some players2
    /\ s' = {| players_ := players2;
               comps_ := comps_ s ++ [mkComp a b sc];
               avoid_ := if avoid_twice_ s
                         then [Player.of_int a; Player.of_int b]
                         else avoid_ s;
               avoid_twice_ := avoid_twice_ s |}.
Proof.
  unfold receive_comp. split.
  - destruct (update_player (players_ s) a b sc) as [players1|]; [|discriminate].
    cbn [mbind option_bind].
    destruct (update_player players1 b a (1 - sc)%R) as [players2|] eqn:H2; [|discriminate].
    cbn [mbind option_bind]. intros [= <-]. exists players1, players2.
    split; [reflexivity|]. split; [exact H2|reflexivity].
  - intros (players1 & players2 & -> & H2 & ->). cbn [mbind option_bind].
    rewrite H2. reflexivity.
Qed.

Lemma receive_comp_no_update (s : t) (a b : Z) (sc : float) :
  receive_comp s a b sc false
  = Some {| players_ := players_ s;
            comps_ := comps_ s ++ [mkComp a b sc];
            avoid_ := avoid_ s;
            avoid_twice_ := avoid_twice_ s |}.
Proof. reflexivity. Qed.

Lemma addPlayer_Some (s s' : t) (rating rd : float) :
  addPlayer s rating rd = Some s' <->
  exists id : Z,
    float_to_int rating = Some id
    /\ s' = {| players_ := players_ s ++ [Player.new id rd Player.default_rd];
               comps_ := comps_ s;
               avoid_ := avoid_ s;
               avoid_twice_ := avoid_twice_ s |}.
Proof.
  unfold addPlayer. split.
  - destruct (float_to_int rating) as [id|]; [|discriminate].
    cbn. intros [= <-]. exists id. auto.
  - intros (id & -> & ->). reflexivity.
Qed.

(** The value a call returns does not depend on anything but the kind of
    call; [get_next_comp] is the only one to return ids, and it leaves the
    state alone. *)
Lemma call_get_next_comp (s s' : t) (r : Result) :
  call s GetNextComp = Some (r, s') -> s' = s.
Proof.
  cbn. destruct (get_next_comp s); cbn; [|discriminate]. now intros [= _ <-].
Qed.

(** Every rd in the collection is the constructor's default, in every
    state a call leaves behind. *)
Lemma call_players_rd (s s' : t) (op : Op) (r : Result) :
  call s op = Some (r, s') ->
  Forall (fun q => Player.rd_ q = Player.default_rd) (players_ s) ->
  Forall (fun q => Player.rd_ q = Player.default_rd) (players_ s').
Proof.
  destruct op as [rating rd| |a b sc [|]| |f]; cbn [call].
  - destruct (addPlayer s rating rd) as [s1|] eqn:H; [|discriminate].
    cbn. intros [= _ <-]. apply addPlayer_Some in H as (id & _ & ->). cbn.
    intros Hall. apply Forall_app. split; [exact Hall|].
    apply Forall_singleton. reflexivity.
  - intros ->%call_get_next_comp. auto.
  - destruct (receive_comp s a b sc true) as [s1|] eqn:H; [|discriminate].
    cbn. intros [= _ <-].
    apply receive_comp_Some in H as (ps1 & ps2 & H1 & H2 & ->). cbn.
    intros Hall.
    assert (Hupd : forall q sc' r' d,
              Player.rd_ q = Player.default_rd ->
              Player.rd_ (Player.update q sc' r' d) = Player.default_rd)
      by (intros q sc' r' d Hq; exact Hq).
    apply (update_player_Forall _ _ _ _ _ _ Hupd H2).
    apply (update_player_Forall _ _ _ _ _ _ Hupd H1).
    exact Hall.
  - rewrite receive_comp_no_update. cbn. intros [= _ <-]. auto.
  - cbn. intros [= _ <-]. auto.
  - cbn. intros [= _ <-]. auto.
Qed.

Lemma run_players_rd (ops : list Op) : forall s s' : t,
  run s ops = Some s' ->
  Forall (fun q => Player.rd_ q = Player.default_rd) (players_ s) ->
  Forall (fun q => Player.rd_ q = Player.default_rd) (players_ s').
Proof.
  induction ops as [|op ops IH]; intros s s'; cbn [run].
  - intros [= <-]. auto.
  - destruct (call s op) as [[r s1]|] eqn:Hc; [|discriminate].
    cbn. intros Hrun Hall. apply (IH s1 s' Hrun).
    exact (call_players_rd _ _ _ _ Hc Hall).
Qed.

(** In a reachable state every player has rd 350. *)
Lemma reachable_rd (s : t) (j : Z) (q : Player.t) :
  reachable s -> vector_at (players_ s) j = Some q -> Player.get_rd q = 350%R.
Proof.
  intros (b & ops & Hrun) [_ Hq]%vector_at_Some.
  assert (Hall := run_players_rd ops _ _ Hrun (Forall_nil_2 _)).
  exact (proj1 (Forall_lookup _ _) Hall _ _ Hq).
Qed.

End Calls.

(** X24: in every reachable state with at most [INT_MAX] players,
    [get_next_comp] returns a pair without reading outside the player
    collection. Its first slot is [-1] exactly when no player is eligible;
    its second slot is [-1] whenever fewer than two players are eligible; a
    slot that is not [-1] holds an eligible player, and the two slots never
    hold the same one. *)
Theorem get_next_comp_reachable_safe (s : LowVolRanker.t) :
  reachable s ->
  Z.of_nat (length (LowVolRanker.players_ s)) <= INT_MAX ->
  exists a b : Z,
    LowVolRanker.get_next_comp s = Some (a, b)
    /\ (a = -1 <-> forall j : Z, ~ eligible s j)
    /\ (fewer_than_two_eligible s -> b = -1)
    /\ (a <> -1 -> eligible s a)
    /\ (b <> -1 -> eligible s b /\ b <> a).
Proof.
  intros Hreach Hsize.
  assert (Hpos : forall (j : Z) (q : Player.t),
            vector_at (LowVolRanker.players_ s) j = Some q -> (0 < Player.get_rd q)%R).
  { intros j q Hq. rewrite (reachable_rd s j q Hreach Hq). lra. }
  unfold LowVolRanker.get_next_comp. cbv zeta.
  destruct (get_best_player_spec s Hsize)
    as [[Ha Hall]|(me & Hme & Hel & Hrd & _)].
  - assert (Hnone : forall j : Z, ~ eligible s j).
    { intros j Hj. destruct (eligible_lookup s j Hj) as [q Hq].
      specialize (Hall j q Hj Hq). specialize (Hpos j q Hq). lra. }
    exists (-1), (-1). rewrite Ha, (get_best_opp_sentinel s Hnone).
    split; [reflexivity|]. split; [tauto|]. split; [|split].
    + reflexivity.
    + intros H. now destruct H.
    + intros H. now destruct H.
  - set (a := LowVolRanker.get_best_player s) in *.
    assert (Ha : a <> -1) by (destruct Hel as [Hlt _]; lia).
    destruct (get_best_opp_spec s Hsize a me Hme)
      as (b & Hb & [[Hb1 _]|(q & Hq & Hc & _)]).
    + exists a, b. rewrite Hb. split; [reflexivity|]. split; [|split; [|split]].
      * split; [contradiction|]. intros H. destruct (H a Hel).
      * intros _. exact Hb1.
      * intros _. exact Hel.
      * intros H. contradiction.
    + exists a, b. rewrite Hb. split; [reflexivity|]. split; [|split; [|split]].
      * split; [contradiction|]. intros H. destruct (H a Hel).
      * intros Hfew. destruct Hc as [Hbel Hba]. destruct Hba. exact (Hfew b a Hbel Hel).
      * intros _. exact Hel.
      * intros _. exact Hc.
Qed.

(** ** Two players 20000 rating points apart *)

(** The variance of the player rated 20000 against the model of the player
    rated 0: [pow(10, -50)] underflows to 0 in single precision, and with it
    the whole product. *)
Lemma var_far :
  var_against (Player.mk 0 0%R 350%R 0) (Player.mk 0 20000%R 350%R 0) = Finite 0.
Proof.
  unfold var_against, Player.compute_score_var, Player.get_rating, Player.get_rd.
  cbn [Player.rating_ Player.rd_].
  rewrite (fsub32_Z 0 20000 (-20000)) by (vm_compute; reflexivity).
  rewrite (fdiv32_Z (-20000) 400 (-50)) by (vm_compute; (reflexivity || discriminate)).
  rewrite pow10_minus_50.
  rewrite (fadd32_Z 1 0 1) by (vm_compute; reflexivity).
  rewrite (fmul32_Z 1 1 1) by (vm_compute; reflexivity).
  rewrite (fdiv32_Z 0 1 0) by (vm_compute; (reflexivity || discriminate)).
  rewrite (fmul32_Z 0 0 0) by (vm_compute; reflexivity).
  rewrite (fmul32_Z 350 350 122500) by (vm_compute; reflexivity).
  rewrite (fadd32_Z 122500 122500 245000) by (vm_compute; reflexivity).
  apply (fmul32_Z 0 245000 0); vm_compute; reflexivity.
Qed.

(** The variance of the player rated 0 against the model of the player rated
    20000: [pow(10, 50)] overflows to infinity in single precision, and the
    quotient of two infinities is NaN. *)
Lemma var_far_rev :
  var_against (Player.mk 0 20000%R 350%R 0) (Player.mk 0 0%R 350%R 0) = NaN.
Proof.
  unfold var_against, Player.compute_score_var, Player.get_rating, Player.get_rd.
  cbn [Player.rating_ Player.rd_].
  rewrite (fsub32_Z 20000 0 20000) by (vm_compute; reflexivity).
  rewrite (fdiv32_Z 20000 400 50) by (vm_compute; (reflexivity || discriminate)).
  rewrite pow10_50. reflexivity.
Qed.

(** The formula in exact arithmetic gives a positive variance at any rating
    gap. *)
Lemma score_variance_pos (rating rd opp_rating opp_rd : R) :
  (0 < rd)%R -> (0 < score_variance rating rd opp_rating opp_rd)%R.
Proof.
  intros Hrd. unfold score_variance. cbv zeta.
  set (e := Rpower 10 _).
  assert (He : (0 < e)%R) by apply exp_pos.
  assert (Hfrac : (0 < e / (1 + e) ^ 2)%R).
  { apply Rdiv_lt_0_compat; [exact He|]. apply pow_lt. lra. }
  apply Rmult_lt_0_compat; [apply pow_lt; exact Hfrac|].
  assert (0 < rd ^ 2)%R by (apply pow_lt; exact Hrd).
  assert (0 <= opp_rd ^ 2)%R by (apply pow2_ge_0).
  lra.
Qed.

Lemma example_far_run : run (LowVolRanker.new true) example_far_ops = Some example_far.
Proof.
  unfold example_far_ops. cbn [run call]. unfold LowVolRanker.addPlayer.
  rewrite float_to_int_zero. reflexivity.
Qed.

Lemma example_far_rev_run :
  run (LowVolRanker.new true) example_far_rev_ops = Some example_far_rev.
Proof.
  unfold example_far_rev_ops. cbn [run call]. unfold LowVolRanker.addPlayer.
  rewrite float_to_int_zero. reflexivity.
Qed.

(** Two players with nothing to avoid: the first slot is player 0, player 1
    is the one candidate, and the second slot is [-1] as soon as the variance
    of player 1 is not above 0. *)
Lemma two_players_next (p0 p1 : Player.t) :
  (0 < Player.get_rd p0)%R -> (Player.get_rd p1 <= Player.get_rd p0)%R ->
  fgt (var_against p0 p1) (Finite 0) = false ->
  let s := {| LowVolRanker.players_ := [p0; p1];
              LowVolRanker.comps_ := [];
              LowVolRanker.avoid_ := [];
              LowVolRanker.avoid_twice_ := true |} in
  LowVolRanker.get_best_player s = 0
  /\ candidate s 0 1
  /\ LowVolRanker.get_next_comp s = Some (0, -1).
Proof.
  intros Hrd0 Hrd1 Hvar s.
  assert (Hsize : Z.of_nat (length (LowVolRanker.players_ s)) <= INT_MAX)
    by (cbn; unfold INT_MAX; lia).
  assert (Hbest : LowVolRanker.get_best_player s = 0).
  { unfold LowVolRanker.get_best_player, s.
    cbn [LowVolRanker.get_best_player_loop LowVolRanker.players_ LowVolRanker.avoid_].
    rewrite (proj2 (float_gt_true _ _) Hrd0). cbn [andb LowVolRanker.find_is_end existsb negb].
    rewrite (proj2 (float_gt_false _ _) Hrd1). reflexivity. }
  assert (Hcand : candidate s 0 1).
  { split; [|lia]. split; [cbn; lia|reflexivity]. }
  split; [exact Hbest|]. split; [exact Hcand|].
  unfold LowVolRanker.get_next_comp. cbv zeta. rewrite Hbest.
  destruct (get_best_opp_spec s Hsize 0 p0 eq_refl)
    as (b & Hb & [[Hb1 _]|(q & Hq & [[Hlt _] Hne] & Hgt & _)]).
  - rewrite Hb, Hb1. reflexivity.
  - exfalso. cbn in Hlt. assert (b = 1) by lia. subst b.
    injection Hq as <-. rewrite Hvar in Hgt. discriminate.
Qed.

(** C4: the state after [addPlayer(0, 0); addPlayer(0, 20000)] is reachable
    and has two eligible players, at positions 0 and 1, and [get_next_comp]
    returns [(0, -1)] there: the sentinel is in the second slot although two
    players are eligible. *)
Theorem get_next_comp_sentinel_two_eligible :
  reachable example_far
  /\ Z.of_nat (length (LowVolRanker.players_ example_far)) <= INT_MAX
  /\ eligible example_far 0
  /\ eligible example_far 1
  /\ ~ fewer_than_two_eligible example_far
  /\ LowVolRanker.get_next_comp example_far = Some (0, -1).
Proof.
  assert (He0 : eligible example_far 0) by (split; [cbn; lia|reflexivity]).
  assert (He1 : eligible example_far 1) by (split; [cbn; lia|reflexivity]).
  split; [exists true, example_far_ops; exact example_far_run|].
  split; [cbn; unfold INT_MAX; lia|].
  split; [exact He0|]. split; [exact He1|]. split.
  - intros Hfew. specialize (Hfew 0 1 He0 He1). discriminate.
  - apply (two_players_next (Player.mk 0 0%R 350%R 0) (Player.mk 0 20000%R 350%R 0)).
    + cbn. lra.
    + cbn. lra.
    + rewrite var_far. apply fgt_irrefl.
Qed.

(** C6: in the state after [addPlayer(0, 0); addPlayer(0, 20000)], which is
    reachable, the first entity is player 0 and player 1 is a candidate whose
    variance by the formula is positive; [compute_score_var] returns 0 for it
    and the second slot is [-1], not player 1. With the two registrations in
    the other order [compute_score_var] returns NaN for the candidate and the
    second slot is [-1] again. *)
Theorem second_slot_misses_candidate :
  reachable example_far
  /\ reachable example_far_rev
  /\ (LowVolRanker.get_best_player example_far = 0
   /\ candidate example_far 0 1
   /\ (0 < score_variance 0 350 20000 350)%R
   /\ var_against (Player.mk 0 0%R 350%R 0) (Player.mk 0 20000%R 350%R 0) = Finite 0
   /\ LowVolRanker.get_next_comp example_far = Some (0, -1))
  /\ (LowVolRanker.get_best_player example_far_rev = 0
      /\ candidate example_far_rev 0 1
      /\ (0 < score_variance 20000 350 0 350)%R
      /\ var_against (Player.mk 0 20000%R 350%R 0) (Player.mk 0 0%R 350%R 0) = NaN
      /\ LowVolRanker.get_next_comp example_far_rev = Some (0, -1)).
Proof.
  split; [exists true, example_far_ops; exact example_far_run|].
  split; [exists true, example_far_rev_ops; exact example_far_rev_run|].
  split.
  - destruct (two_players_next (Player.mk 0 0%R 350%R 0) (Player.mk 0 20000%R 350%R 0))
      as (Hbest & Hcand & Hnext).
    + cbn. lra.
    + cbn. lra.
    + rewrite var_far. apply fgt_irrefl.
    + split; [exact Hbest|]. split; [exact Hcand|].
      split; [apply score_variance_pos; lra|]. split; [exact var_far|exact Hnext].
  - destruct (two_players_next (Player.mk 0 20000%R 350%R 0) (Player.mk 0 0%R 350%R 0))
      as (Hbest & Hcand & Hnext).
    + cbn. lra.
    + cbn. lra.
    + rewrite var_far_rev. reflexivity.
    + split; [exact Hbest|]. split; [exact Hcand|].
      split; [apply score_variance_pos; lra|]. split; [exact var_far_rev|exact Hnext].
Qed.

(** A state no sequence of calls leads to: one player of rd 0 and nothing to
    avoid. No first entity is found, and the opponent loop then reads
    [players_[-1]]. *)
Lemma get_next_comp_fault_outside_reachable :
  let s := {| LowVolRanker.players_ := [Player.new 0 0%R 0%R];
              LowVolRanker.comps_ := [];
              LowVolRanker.avoid_ := [];
              LowVolRanker.avoid_twice_ := true |} in
  LowVolRanker.get_best_player s = -1 /\ LowVolRanker.get_next_comp s = None.
Proof.
  assert (Hgt : float_gt 0%R 0%R = false) by (apply float_gt_false; lra).
  cbv zeta. unfold LowVolRanker.get_next_comp, LowVolRanker.get_best_player.
  cbn [LowVolRanker.get_best_player_loop LowVolRanker.players_ LowVolRanker.avoid_
       Player.new Player.get_rd Player.rd_].
  rewrite Hgt. cbn [andb]. split; [reflexivity|].
  reflexivity.
Qed.

(** ** The avoid-set *)

Section Avoid.

Import LowVolRanker.

Lemma last_update_acc (ops : list Op) : forall acc : option (Z * Z),
  last_update ops acc
  = match last_update ops None with Some ids => Some ids | None => acc end.
Proof.
  induction ops as [|op ops IH]; intros acc; cbn [last_update].
  - reflexivity.
  - destruct op as [rating rd| |a b sc [|]| |f]; try apply IH.
    rewrite (IH (Some (a, b))), (IH None).
    cbn. destruct (last_update ops None); reflexivity.
Qed.

(** What one call does to the avoid-set and to the policy flag. *)
Lemma call_avoid (s s' : t) (op : Op) (r : Result) :
  call s op = Some (r, s') ->
  avoid_twice_ s' = avoid_twice_ s
  /\ avoid_ s'
     = match op with
       | ReceiveComp a b _ true =>
           if avoid_twice_ s then [Player.of_int a; Player.of_int b] else avoid_ s
       | _ => avoid_ s
       end.
Proof.
  destruct op as [rating rd| |a b sc [|]| |f]; cbn [call].
  - destruct (addPlayer s rating rd) as [s1|] eqn:H; [|discriminate].
    cbn. intros [= _ <-]. apply addPlayer_Some in H as (id & _ & ->). auto.
  - intros ->%call_get_next_comp. auto.
  - destruct (receive_comp s a b sc true) as [s1|] eqn:H; [|discriminate].
    cbn. intros [= _ <-].
    apply receive_comp_Some in H as (ps1 & ps2 & _ & _ & ->). auto.
  - rewrite receive_comp_no_update. cbn. intros [= _ <-]. auto.
  - cbn. intros [= _ <-]. auto.
  - cbn. intros [= _ <-]. auto.
Qed.

Lemma run_avoid (ops : list Op) : forall s s' : t,
  run s ops = Some s' ->
  avoid_twice_ s' = avoid_twice_ s
  /\ avoid_ids s'
     = if avoid_twice_ s
       then match last_update ops None with
            | Some (a, b) => [a; b]
            | None => avoid_ids s
            end
       else avoid_ids s.
Proof.
  induction ops as [|op ops IH]; intros s s'; cbn [run].
  - intros [= <-]. split; [reflexivity|]. cbn. now destruct (avoid_twice_ s).
  - destruct (call s op) as [[r s1]|] eqn:Hc; [|discriminate].
    cbn [mbind option_bind]. intros Hrun.
    destruct (IH s1 s' Hrun) as [Hflag Hids].
    destruct (call_avoid _ _ _ _ Hc) as [Hflag1 Hav1].
    split; [congruence|].
    rewrite Hids, Hflag1. destruct (avoid_twice_ s) eqn:Hb.
    + cbn [last_update].
      destruct op as [rating rd| |a b sc [|]| |f];
        try (unfold avoid_ids; rewrite Hav1; reflexivity).
      rewrite (last_update_acc ops (Some (a, b))).
      destruct (last_update ops None) as [[a' b']|]; [reflexivity|].
      unfold avoid_ids. rewrite Hav1. reflexivity.
    + unfold avoid_ids. rewrite Hav1.
      destruct op as [rating rd| |a b sc [|]| |f]; reflexivity.
Qed.

End Avoid.

(** C8: after any sequence of calls on a ranker constructed with
    [avoid_twice], the policy flag is still [avoid_twice]; with the policy on,
    the avoid-set holds exactly the two ids of the most recent [receive_comp]
    call that had [update = true], and is empty when there was none; with the
    policy off it is empty. A call other than a [receive_comp] with
    [update = true] leaves the avoid-set as it found it. *)
Theorem avoid_set_invariant (avoid_twice : bool) (ops : list Op) (s : LowVolRanker.t) :
  run (LowVolRanker.new avoid_twice) ops = Some s ->
  LowVolRanker.avoid_twice_ s = avoid_twice
  /\ avoid_ids s
     = (if avoid_twice
        then match last_update ops None with
             | Some (a, b) => [a; b]
             | None => []
             end
        else [])
  /\ (forall (op : Op) (r : Result) (s' : LowVolRanker.t),
        call s op = Some (r, s') ->
        (forall (a b : Z) (sc : float), op <> ReceiveComp a b sc true) ->
        LowVolRanker.avoid_ s' = LowVolRanker.avoid_ s).
Proof.
  intros Hrun. destruct (run_avoid ops _ _ Hrun) as [Hflag Hids].
  split; [exact Hflag|]. split; [exact Hids|].
  intros op r s' Hc Hop. destruct (call_avoid _ _ _ _ Hc) as [_ Hav].
  rewrite Hav. destruct op as [rating rd| |a b sc [|]| |f]; try reflexivity.
  destruct (Hop a b sc eq_refl).
Qed.

(** ** The ledger *)

(** What one call does to the ledger. *)
Lemma call_ledger (s : LowVolRanker.t) (op : Op) (r : Result) (s' : LowVolRanker.t) :
  call s op = Some (r, s') ->
  exists added : list Comp,
    LowVolRanker.comps_ s' = LowVolRanker.comps_ s ++ added
    /\ added = match op with
               | ReceiveComp a b sc _ => [mkComp a b sc]
               | _ => []
               end.
Proof.
  revert op r s'.
  - intros op r s'.
    destruct op as [rating rd| |a b sc [|]| |f]; cbn [call].
    + destruct (LowVolRanker.addPlayer s rating rd) as [s1|] eqn:H; [|discriminate].
      cbn. intros [= _ <-]. apply addPlayer_Some in H as (id & _ & ->).
      exists []. cbn. now rewrite app_nil_r.
    + intros ->%call_get_next_comp. exists []. now rewrite app_nil_r.
    + destruct (LowVolRanker.receive_comp s a b sc true) as [s1|] eqn:H; [|discriminate].
      cbn. intros [= _ <-].
      apply receive_comp_Some in H as (ps1 & ps2 & _ & _ & ->).
      eexists. split; reflexivity.
    + rewrite receive_comp_no_update. cbn. intros [= _ <-].
      eexists. split; reflexivity.
    + cbn. intros [= _ <-]. exists []. now rewrite app_nil_r.
    + cbn. intros [= _ <-]. exists []. now rewrite app_nil_r.
Qed.

Lemma run_ledger (ops : list Op) : forall s s' : LowVolRanker.t,
  run s ops = Some s' ->
  exists added : list Comp, LowVolRanker.comps_ s' = LowVolRanker.comps_ s ++ added.
Proof.
  induction ops as [|op ops IH]; intros s s'; cbn [run].
  - intros [= <-]. exists []. now rewrite app_nil_r.
  - destruct (call s op) as [[r s1]|] eqn:Hc; [|discriminate].
    cbn [mbind option_bind]. intros Hrun.
    destruct (call_ledger _ _ _ _ Hc) as (added1 & H1 & _).
    destruct (IH s1 s' Hrun) as [added2 H2].
    exists (added1 ++ added2). now rewrite H2, H1, app_assoc.
Qed.

(** C9: a [receive_comp] call that completes (as every call with
    [update = false] does, and every call with [update = true] on ids inside
    the collection) appends the one entry [(id1, id2, score)] to the ledger,
    whatever the update flag; any call of the interface leaves the ledger as
    it was or with that one entry appended, and across any sequence of calls
    every entry already in the ledger stays at its place, unchanged. *)
Theorem ledger_append_only (s : LowVolRanker.t) (id1 id2 : Z) (score : float) (update : bool) :
  (update = true ->
   is_Some (vector_at (LowVolRanker.players_ s) (to_size_t id1))
   /\ is_Some (vector_at (LowVolRanker.players_ s) (to_size_t id2))) ->
  (exists s' : LowVolRanker.t,
     LowVolRanker.receive_comp s id1 id2 score update = Some s'
     /\ LowVolRanker.comps_ s' = LowVolRanker.comps_ s ++ [mkComp id1 id2 score])
  /\ (forall (op : Op) (r : Result) (s' : LowVolRanker.t),
        call s op = Some (r, s') ->
        exists added : list Comp,
          LowVolRanker.comps_ s' = LowVolRanker.comps_ s ++ added
          /\ added = match op with
                     | ReceiveComp a b sc _ => [mkComp a b sc]
                     | _ => []
                     end)
  /\ (forall (ops : list Op) (s' : LowVolRanker.t),
        run s ops = Some s' ->
        forall (i : nat) (c : Comp),
          LowVolRanker.comps_ s !! i = Some c -> LowVolRanker.comps_ s' !! i = Some c).
Proof.
  intros Hvalid. split; [|split; [exact (call_ledger s)|]].
  2:{ intros ops s' Hrun i c Hc. destruct (run_ledger ops s s' Hrun) as [added ->].
      now apply lookup_app_l_Some. }
  - destruct update.
    + destruct (Hvalid eq_refl) as [[p1 H1] [p2 H2]].
      destruct (LowVolRanker.update_player (LowVolRanker.players_ s) id1 id2 score)
        as [ps1|] eqn:Hu1.
      2:{ unfold LowVolRanker.update_player, LowVolRanker.update_args in Hu1.
          rewrite H1, H2 in Hu1. discriminate. }
      assert (Hlen := update_player_length _ _ _ _ _ Hu1).
      apply update_player_Some in Hu1 as Hu1'.
      destruct Hu1' as (me & opp & _ & _ & Hps1).
      assert (H1' : is_Some (vector_at ps1 (to_size_t id1))).
      { apply vector_at_lt in H1 as Hlt. unfold vector_at.
        destruct (decide (0 <= to_size_t id1)); [|lia].
        apply lookup_lt_is_Some_2. lia. }
      assert (H2' : is_Some (vector_at ps1 (to_size_t id2))).
      { apply vector_at_lt in H2 as Hlt. unfold vector_at.
        destruct (decide (0 <= to_size_t id2)); [|lia].
        apply lookup_lt_is_Some_2. lia. }
      destruct H1' as [q1 Hq1]. destruct H2' as [q2 Hq2].
      destruct (LowVolRanker.update_player ps1 id2 id1 (1 - score)%R) as [ps2|] eqn:Hu2.
      2:{ unfold LowVolRanker.update_player, LowVolRanker.update_args in Hu2.
          rewrite Hq1, Hq2 in Hu2. discriminate. }
      eexists. split.
      * apply receive_comp_Some. exists ps1, ps2. split; [exact Hu1|].
        split; [exact Hu2|reflexivity].
      * reflexivity.
    + eexists. split; [apply receive_comp_no_update|reflexivity].
Qed.

(** ** Registration *)

Lemma addPlayer_new_entry (s : LowVolRanker.t) (rating rd : float) (id : Z) :
  float_to_int rating = Some id ->
  exists s' : LowVolRanker.t,
    LowVolRanker.addPlayer s rating rd = Some s'
    /\ LowVolRanker.players_ s'
       = LowVolRanker.players_ s ++ [Player.new id rd Player.default_rd].
Proof.
  intros Hid. eexists. split.
  - apply addPlayer_Some. exists id. split; [exact Hid|reflexivity].
  - reflexivity.
Qed.

Lemma vector_at_app_l {A} (v w : list A) (i : Z) (x : A) :
  vector_at v i = Some x -> vector_at (v ++ w) i = Some x.
Proof.
  intros [H0 H]%vector_at_Some. apply vector_at_Some. split; [exact H0|].
  now apply lookup_app_l_Some.
Qed.

Lemma vector_at_app_end {A} (v : list A) (x : A) :
  vector_at (v ++ [x]) (Z.of_nat (length v)) = Some x.
Proof.
  apply vector_at_Some. split; [lia|].
  rewrite Nat2Z.id. apply list_lookup_middle. reflexivity.
Qed.

(** C2: [addPlayer(r, d)] hands its two arguments to a constructor whose
    first parameter is the id, so the new player's rating is [d] and its rd
    is the default 350. With the defaults [(0.0, 350.0)], on any state, the
    new player's [get_rating()] is 350 and not 0; with [(1500, 200)] on a new
    ranker, [get_rating()] is 200, [get_rd()] is 350 and the id is 1500. *)
Theorem addPlayer_shifts_arguments :
  (forall s : LowVolRanker.t,
     exists (s' : LowVolRanker.t) (p : Player.t),
       LowVolRanker.addPlayer s 0%R 350%R = Some s'
       /\ vector_at (LowVolRanker.players_ s')
            (Z.of_nat (length (LowVolRanker.players_ s))) = Some p
       /\ Player.get_rating p = 350%R
       /\ Player.get_rd p = 350%R
       /\ Player.get_rating p <> 0%R)
  /\ (exists (s' : LowVolRanker.t) (p : Player.t),
        LowVolRanker.addPlayer (LowVolRanker.new true) 1500%R 200%R = Some s'
        /\ LowVolRanker.players_ s' = [p]
        /\ Player.get_rating p = 200%R
        /\ Player.get_rd p = 350%R
        /\ Player.id_ p = 1500
        /\ Player.get_rating p <> 1500%R
        /\ Player.get_rd p <> 200%R).
Proof.
  split.
  - intros s.
    destruct (addPlayer_new_entry s 0%R 350%R 0) as (s' & Hs' & Hps).
    { apply (float_to_int_IZR 0). unfold INT_MIN, INT_MAX. lia. }
    exists s', (Player.new 0 350%R Player.default_rd).
    split; [exact Hs'|]. rewrite Hps. split; [apply vector_at_app_end|].
    cbn. unfold Player.default_rd. repeat split; lra.
  - destruct (addPlayer_new_entry (LowVolRanker.new true) 1500%R 200%R 1500)
      as (s' & Hs' & Hps).
    { apply (float_to_int_IZR 1500). unfold INT_MIN, INT_MAX. lia. }
    exists s', (Player.new 1500 200%R Player.default_rd).
    split; [exact Hs'|]. rewrite Hps. split; [reflexivity|].
    cbn. unfold Player.default_rd. repeat split; lra.
Qed.




(** ** Applying an outcome *)

(** The second update of [receive_comp] reads [players_[id1]] after the first
    update has written it: what it finds there is the updated player, with
    its comparison already counted. *)
Lemma second_read_sees_updated_player
    (ps players1 : list Player.t) (id1 id2 : Z) (score : float) (p1 : Player.t) :
  vector_at ps (to_size_t id1) = Some p1 ->
  LowVolRanker.update_player ps id1 id2 score = Some players1 ->
  exists u1 : Player.t,
    vector_at players1 (to_size_t id1) = Some u1
    /\ Player.get_num_comps u1 = to_int (Player.get_num_comps p1 + 1)
    /\ Player.get_rating u1 = Player.get_rating p1
    /\ Player.get_rd u1 = Player.get_rd p1.
Proof.
  intros H1 (me & opp & Hme & _ & ->)%update_player_Some.
  rewrite H1 in Hme. injection Hme as <-.
  exists (Player.update p1 score (Player.get_rating opp) (Player.get_rd opp)).
  split; [|split; [|split]]; [|reflexivity..].
  apply vector_at_Some. apply vector_at_Some in H1 as H1'. destruct H1' as [H0 Hl].
  split; [exact H0|]. apply list_lookup_insert_eq. now apply lookup_lt_Some in Hl.
Qed.


(** ** The statements at work on the example states *)

(** Running the registrations of [example_ops]. *)
Lemma example_registered_run :
  run (LowVolRanker.new true) [AddPlayer 0%R 350%R; AddPlayer 0%R 350%R; AddPlayer 0%R 350%R]
  = Some example_registered.
Proof.
  cbn [run call]. unfold LowVolRanker.addPlayer.
  rewrite float_to_int_zero. reflexivity.
Qed.

(** The comparison of [example_ops], applied to the registered players. *)
Lemma example_compared_step :
  LowVolRanker.receive_comp example_registered 0 1 1%R true = Some example_compared.
Proof.
  apply receive_comp_Some.
  exists [Player.mk 0 350%R 350%R 1; Player.mk 0 350%R 350%R 0; Player.mk 0 350%R 350%R 0],
         [Player.mk 0 350%R 350%R 1; Player.mk 0 350%R 350%R 1; Player.mk 0 350%R 350%R 0].
  split; [|split].
  - apply update_player_Some.
    exists (Player.mk 0 350%R 350%R 0), (Player.mk 0 350%R 350%R 0).
    split; [reflexivity|]. split; reflexivity.
  - apply update_player_Some.
    exists (Player.mk 0 350%R 350%R 0), (Player.mk 0 350%R 350%R 1).
    split; [reflexivity|]. split; reflexivity.
  - reflexivity.
Qed.

(** Running all of [example_ops]. *)
Lemma example_compared_run : run (LowVolRanker.new true) example_ops = Some example_compared.
Proof.
  change example_ops
    with ([AddPlayer 0%R 350%R; AddPlayer 0%R 350%R; AddPlayer 0%R 350%R]
          ++ [ReceiveComp 0 1 1%R true]).
  assert (Happ : forall ops1 ops2 s s1,
            run s ops1 = Some s1 -> run s (ops1 ++ ops2) = run s1 ops2).
  { induction ops1 as [|op ops1 IH]; intros ops2 s s1; cbn [run app].
    - now intros [= <-].
    - destruct (call s op) as [[r s0]|]; [|discriminate]. cbn. apply IH. }
  rewrite (Happ _ _ _ _ example_registered_run).
  cbn [run call]. rewrite example_compared_step. reflexivity.
Qed.

(** The first slot on [example_mixed]: position 1, the first of the two
    players of rd 350. *)
Lemma example_mixed_best_player : LowVolRanker.get_best_player example_mixed = 1.
Proof.
  unfold LowVolRanker.get_best_player, example_mixed.
  cbn [LowVolRanker.get_best_player_loop LowVolRanker.players_ LowVolRanker.avoid_
       Player.new Player.get_rd Player.rd_].
  eval_float_gt. reflexivity.
Qed.

(** After the comparison of players 0 and 1 only player 2 is eligible. *)
Lemma example_compared_next : LowVolRanker.get_next_comp example_compared = Some (2, -1).
Proof.
  unfold LowVolRanker.get_next_comp, LowVolRanker.get_best_player,
    LowVolRanker.get_best_opp, example_compared.
  cbn [LowVolRanker.get_best_player_loop LowVolRanker.players_ LowVolRanker.avoid_
       Player.get_rd Player.rd_].
  eval_float_gt. reflexivity.
Qed.

(** Every rd of [example_mixed] is positive. *)
Lemma example_mixed_rd_positive (j : Z) (q : Player.t) :
  vector_at (LowVolRanker.players_ example_mixed) j = Some q -> (0 < Player.get_rd q)%R.
Proof.
  intros [_ Hq]%vector_at_Some. unfold example_mixed in Hq.
  cbn [LowVolRanker.players_] in Hq.
  destruct (Z.to_nat j) as [|[|[|n]]]; cbn [lookup list_lookup] in Hq;
    try discriminate; injection Hq as <-; cbn [Player.new Player.get_rd Player.rd_]; lra.
Qed.

(** The first-slot statement on [example_mixed]. *)
Lemma first_slot_highest_rd_witness :
  exists b : Z,
    LowVolRanker.get_next_comp example_mixed = Some (LowVolRanker.get_best_player example_mixed, b)
    /\ ((forall j : Z, ~ eligible example_mixed j) ->
        LowVolRanker.get_best_player example_mixed = -1)
    /\ ((exists j : Z, eligible example_mixed j) ->
        exists q : Player.t,
          vector_at (LowVolRanker.players_ example_mixed)
            (LowVolRanker.get_best_player example_mixed) = Some q
          /\ eligible example_mixed (LowVolRanker.get_best_player example_mixed)
          /\ (forall (j : Z) (q' : Player.t),
                eligible example_mixed j ->
                vector_at (LowVolRanker.players_ example_mixed) j = Some q' ->
                (Player.get_rd q' <= Player.get_rd q)%R)
          /\ (forall (j : Z) (q' : Player.t),
                j < LowVolRanker.get_best_player example_mixed ->
                eligible example_mixed j ->
                vector_at (LowVolRanker.players_ example_mixed) j = Some q' ->
                (Player.get_rd q' < Player.get_rd q)%R)).
Proof.
  apply (first_slot_highest_rd example_mixed).
  - cbn. unfold INT_MAX. lia.
  - intros j q _. apply example_mixed_rd_positive.
Defined.


(** The avoid-set after [example_ops] holds the ids 0 and 1. *)
Lemma avoid_set_invariant_witness :
  LowVolRanker.avoid_twice_ example_compared = true
  /\ avoid_ids example_compared = [0; 1]
  /\ (forall (op : Op) (r : Result) (s' : LowVolRanker.t),
        call example_compared op = Some (r, s') ->
        (forall (a b : Z) (sc : float), op <> ReceiveComp a b sc true) ->
        LowVolRanker.avoid_ s' = LowVolRanker.avoid_ example_compared).
Proof.
  exact (avoid_set_invariant true example_ops example_compared example_compared_run).
Defined.

(** The comparison of players 0 and 1 is the one entry of the ledger. *)
Lemma ledger_append_only_witness :
  exists s' : LowVolRanker.t,
    LowVolRanker.receive_comp example_registered 0 1 1%R true = Some s'
    /\ LowVolRanker.comps_ s' = [mkComp 0 1 1%R].
Proof.
  destruct (ledger_append_only example_registered 0 1 1%R true) as [Happ _].
  - intros _. split; eexists; reflexivity.
  - exact Happ.
Defined.


(** ** More on the rating formulas *)

Section Formulas.

Import Player.
Local Open Scope R_scope.

(** The constant under the square root of [get_g]. *)
Lemma get_g_unfold (p : Player.t) (d : float) :
  get_g p d = 1 / sqrt (1 + (3 * (Q * Q) * (/ PI * / PI)) * (d * d)).
Proof.
  unfold get_g. f_equal. f_equal. unfold Rdiv. ring.
Qed.

Lemma get_g_coeff_pos : 0 < 3 * (Q * Q) * (/ PI * / PI).
Proof.
  assert (HQ := Q_pos). assert (HPI := PI_RGT_0).
  assert (Hu : 0 < / PI) by now apply Rinv_0_lt_compat.
  apply Rmult_lt_0_compat; [|nra]. nra.
Qed.

Lemma get_g_le_1 (p : Player.t) (d : float) : get_g p d <= 1.
Proof.
  rewrite get_g_unfold. assert (Hc := get_g_coeff_pos).
  set (c := 3 * (Q * Q) * (/ PI * / PI)) in *.
  assert (H1 : 0 <= d * d) by nra.
  assert (Hs1 : 1 <= sqrt (1 + c * (d * d))).
  { rewrite <- sqrt_1 at 1. apply sqrt_le_1_alt. nra. }
  unfold Rdiv. rewrite Rmult_1_l. rewrite <- Rinv_1 at 2.
  apply Rinv_le_contravar; lra.
Qed.

(** X1: [get_g] is 1 against an opponent of rd 0 and falls strictly, staying
    positive, as the size of the opponent's rd grows. *)
Theorem get_g_decreasing (p : Player.t) (d1 d2 : float) :
  Rabs d1 < Rabs d2 ->
  get_g p 0 = 1 /\ 0 < get_g p d2 /\ get_g p d2 < get_g p d1 /\ get_g p d1 <= 1.
Proof.
  intros Habs. rewrite !get_g_unfold.
  assert (Hc := get_g_coeff_pos). set (c := 3 * (Q * Q) * (/ PI * / PI)) in *.
  assert (Hsq : d1 * d1 < d2 * d2) by (apply Rsqr_lt_abs_1 in Habs; exact Habs).
  assert (H1 : 0 <= d1 * d1) by nra.
  assert (Hs1 : 1 <= sqrt (1 + c * (d1 * d1))).
  { rewrite <- sqrt_1 at 1. apply sqrt_le_1_alt. nra. }
  assert (Hs12 : sqrt (1 + c * (d1 * d1)) < sqrt (1 + c * (d2 * d2))).
  { apply sqrt_lt_1_alt. nra. }
  split; [|split; [|split]].
  - rewrite Rmult_0_l, Rmult_0_r, Rplus_0_r, sqrt_1. lra.
  - apply Rdiv_lt_0_compat; lra.
  - unfold Rdiv. rewrite !Rmult_1_l. apply Rinv_lt_contravar; [|exact Hs12].
    apply Rmult_lt_0_compat; lra.
  - unfold Rdiv. rewrite Rmult_1_l. rewrite <- Rinv_1 at 2.
    apply Rinv_le_contravar; lra.
Qed.

(** The logistic curve behind [get_expected_score]. *)
Lemma get_expected_score_unfold (p : Player.t) (opp_rating opp_rd g : float) :
  get_expected_score p opp_rating opp_rd g
  = 1 / (1 + Rpower 10 (- (g * (rating_ p - opp_rating) / 400))).
Proof.
  unfold get_expected_score. do 3 f_equal. unfold Rdiv. ring.
Qed.

(** X2: seen from the two sides of one comparison with one and the same [g], the
    expected scores lie strictly between 0 and 1 and add up to 1. *)
Theorem get_expected_score_complement
    (p q : Player.t) (opp_rd opp_rd' g : float) :
  0 < get_expected_score p (get_rating q) opp_rd g < 1
  /\ get_expected_score p (get_rating q) opp_rd g
     + get_expected_score q (get_rating p) opp_rd' g = 1.
Proof.
  split; [apply get_expected_score_range|].
  rewrite !get_expected_score_unfold. unfold get_rating.
  replace (- (g * (rating_ q - rating_ p) / 400))
    with (- - (g * (rating_ p - rating_ q) / 400)) by (unfold Rdiv; ring).
  set (x := - (g * (rating_ p - rating_ q) / 400)).
  rewrite (Rpower_Ropp 10 x).
  assert (He : 0 < Rpower 10 x) by apply exp_pos.
  field. lra.
Qed.

(** X3: with a positive [g] the expected score grows strictly with the lead of
    the player's rating over the opponent's. *)
Theorem get_expected_score_increasing
    (p1 p2 : Player.t) (r1 r2 opp_rd1 opp_rd2 g : float) :
  0 < g ->
  rating_ p1 - r1 < rating_ p2 - r2 ->
  get_expected_score p1 r1 opp_rd1 g < get_expected_score p2 r2 opp_rd2 g.
Proof.
  intros Hg Hlead. rewrite !get_expected_score_unfold.
  set (x1 := - (g * (rating_ p1 - r1) / 400)).
  set (x2 := - (g * (rating_ p2 - r2) / 400)).
  assert (Hx : x2 < x1) by (unfold x1, x2; nra).
  assert (He : Rpower 10 x2 < Rpower 10 x1) by (apply Rpower_lt; lra).
  assert (H2 : 0 < Rpower 10 x2) by apply exp_pos.
  unfold Rdiv. rewrite !Rmult_1_l. apply Rinv_lt_contravar; [|lra].
  apply Rmult_lt_0_compat; lra.
Qed.

(** X4: [get_d2] is never below [4 / (Q g)^2], the value it takes for an even
    match. *)
Theorem get_d2_lower_bound (p : Player.t) (opp_rating opp_rd : float) :
  0 < 4 / (Q * Q * get_g p opp_rd * get_g p opp_rd)
    <= get_d2 p opp_rating opp_rd.
Proof.
  unfold get_d2.
  assert (HQ := Q_pos). assert (Hg := get_g_pos p opp_rd).
  assert (He := get_expected_score_range p opp_rating opp_rd (get_g p opp_rd)).
  generalize dependent (get_expected_score p opp_rating opp_rd (get_g p opp_rd)).
  generalize dependent (get_g p opp_rd). generalize dependent Q.
  intros q Hq g Hg e He.
  assert (Hk : 0 < q * q * g * g) by (repeat apply Rmult_lt_0_compat; lra).
  assert (Hee : 0 < e * (1 - e) <= / 4).
  { split; [apply Rmult_lt_0_compat; lra|].
    assert (Hsq := Rle_0_sqr (e - / 2)). unfold Rsqr in Hsq.
    replace (/ 4) with (e * (1 - e) + (e - / 2) * (e - / 2)) by field. lra. }
  split.
  - apply Rdiv_lt_0_compat; lra.
  - replace (4 / (q * q * g * g)) with (1 / (q * q * g * g * / 4)) by (field; lra).
    replace (q * q * g * g * e * (1 - e)) with (q * q * g * g * (e * (1 - e))) by ring.
    unfold Rdiv. rewrite !Rmult_1_l. apply Rinv_le_contravar.
    + apply Rmult_lt_0_compat; lra.
    + apply Rmult_le_compat_l; lra.
Qed.

(** X5: for a player of positive rd and a positive [d2], the rd that [update]
    computes is positive, strictly below the current rd, and its square is the
    harmonic combination [rd^2 d2 / (rd^2 + d2)]. *)
Theorem get_new_rd_bounds (p : Player.t) (d2 : float) :
  0 < rd_ p -> 0 < d2 ->
  0 < get_new_rd p d2 < rd_ p
  /\ get_new_rd p d2 * get_new_rd p d2 = rd_ p * rd_ p * d2 / (rd_ p * rd_ p + d2).
Proof.
  intros Hrd Hd2. unfold get_new_rd.
  destruct (precision_sum_bounds p d2 Hrd Hd2) as [H0 H1].
  split; [split|].
  - apply sqrt_lt_R0. exact H0.
  - rewrite <- (sqrt_square (rd_ p)) at 3 by lra. apply sqrt_lt_1_alt. lra.
  - rewrite sqrt_sqrt by lra. field. split; [|split]; nra.
Qed.

(** X6: for a player of positive rd and a positive [d2], the rating that [update]
    computes moves from the current rating towards the side of the surprise:
    up when the score beats the expectation, down when it falls short, not at
    all when they agree; and the move is smaller than [Q rd^2] times the
    surprise. *)
Theorem get_new_rating_direction
    (p : Player.t) (score opp_rating opp_rd d2 : float) :
  0 < rd_ p -> 0 < d2 ->
  let e := get_expected_score p opp_rating opp_rd (get_g p opp_rd) in
  let r := get_new_rating p score opp_rating opp_rd d2 in
  (e < score -> rating_ p < r)
  /\ (score < e -> r < rating_ p)
  /\ (score = e -> r = rating_ p)
  /\ Rabs (r - rating_ p) <= Q * (rd_ p * rd_ p) * Rabs (score - e).
Proof.
  intros Hrd Hd2 e r. subst e r. unfold get_new_rating. cbv zeta.
  destruct (precision_sum_bounds p d2 Hrd Hd2) as [H0 H1].
  assert (HQ := Q_pos).
  assert (Hg : 0 < get_g p opp_rd <= 1) by (split; [apply get_g_pos|apply get_g_le_1]).
  generalize dependent (get_expected_score p opp_rating opp_rd (get_g p opp_rd)).
  generalize dependent (get_g p opp_rd). generalize dependent Q.
  intros q Hq g Hg e.
  replace (q / (1 / (rd_ p * rd_ p) + 1 / d2)) with (q * (1 / (1 / (rd_ p * rd_ p) + 1 / d2)))
    by (unfold Rdiv; ring).
  set (k := 1 / (1 / (rd_ p * rd_ p) + 1 / d2)) in *.
  assert (Hqkg : 0 < q * k * g)
    by (apply Rmult_lt_0_compat; [apply Rmult_lt_0_compat|]; lra).
  assert (Hbound : q * k * g <= q * (rd_ p * rd_ p)).
  { rewrite Rmult_assoc. apply Rmult_le_compat_l; [lra|]. nra. }
  split; [|split; [|split]].
  - intros Hs. assert (0 < q * k * g * (score - e)) by (apply Rmult_lt_0_compat; lra). lra.
  - intros Hs. assert (0 < q * k * g * (e - score)) by (apply Rmult_lt_0_compat; lra). lra.
  - intros ->. lra.
  - replace (rating_ p + q * k * g * (score - e) - rating_ p)
      with (q * k * g * (score - e)) by ring.
    rewrite Rabs_mult, (Rabs_pos_eq (q * k * g)) by lra.
    apply Rmult_le_compat_r; [apply Rabs_pos|exact Hbound].
Qed.

End Formulas.

(** ** Counting comparisons *)

(** X10: a player that goes through a sequence of [update] calls keeps its id,
    rating and rd and has its comparison count raised by the number of calls,
    as long as the count stays within [int]. *)
Theorem apply_updates_counts (p : Player.t) (us : list (float * float * float)) :
  INT_MIN <= Player.get_num_comps p ->
  Player.get_num_comps p + Z.of_nat (length us) <= INT_MAX ->
  Player.get_num_comps (apply_updates p us)
  = Player.get_num_comps p + Z.of_nat (length us)
  /\ Player.id_ (apply_updates p us) = Player.id_ p
  /\ Player.get_rating (apply_updates p us) = Player.get_rating p
  /\ Player.get_rd (apply_updates p us) = Player.get_rd p.
Proof.
  unfold apply_updates. revert p.
  induction us as [|[[sc r] d] us IH]; intros p Hlo Hhi; cbn [fold_left length] in *.
  - repeat split. lia.
  - assert (Hstep : Player.get_num_comps (Player.update p sc r d)
                    = Player.get_num_comps p + 1).
    { rewrite update_num_comps. apply to_int_id. unfold INT_MIN, INT_MAX in *. lia. }
    destruct (IH (Player.update p sc r d)) as (Hn & Hid & Hr & Hd); [lia|lia|].
    rewrite Hn, Hid, Hr, Hd, Hstep. repeat split. lia.
Qed.

(** Ten updates of a new player. *)
Lemma apply_updates_counts_witness :
  Player.get_num_comps
    (apply_updates (Player.new 7 1500%R 200%R) (repeat (1%R, 1400%R, 30%R) 10)) = 10.
Proof.
  apply (apply_updates_counts (Player.new 7 1500%R 200%R) (repeat (1%R, 1400%R, 30%R) 10)).
  - cbn. unfold INT_MIN. lia.
  - cbn. unfold INT_MAX. lia.
Defined.

(** ** Selection in an arbitrary state *)

Section AnyState.

Import LowVolRanker.

(** With [players_[id]] out of bounds the opponent loop can only return the
    id it started with. *)
Lemma get_best_opp_loop_no_me (avoid all ps : list Player.t) (id : Z) :
  vector_at all (to_size_t id) = None ->
  forall (i max_id : Z) (max_var : fp) (r : Z),
  get_best_opp_loop avoid all id ps i max_id max_var = Some r -> r = max_id.
Proof.
  intros Hme.
  induction ps as [|p ps' IH]; intros i max_id max_var r; cbn [get_best_opp_loop].
  - now intros [= <-].
  - destruct (negb (i =? to_size_t id) && find_is_end avoid i).
    + rewrite Hme. discriminate.
    + apply IH.
Qed.

(** With [players_[id]] out of bounds the opponent loop faults exactly when
    some position from [i] on is neither [id] nor excluded. *)
Lemma get_best_opp_loop_fault (avoid all ps : list Player.t) (id : Z) :
  vector_at all (to_size_t id) = None ->
  forall (i max_id : Z) (max_var : fp),
  get_best_opp_loop avoid all id ps i max_id max_var = None <->
  exists k : nat,
    (k < length ps)%nat
    /\ negb (i + Z.of_nat k =? to_size_t id) && find_is_end avoid (i + Z.of_nat k) = true.
Proof.
  intros Hme.
  induction ps as [|p ps' IH]; intros i max_id max_var; cbn [get_best_opp_loop length].
  - split; [discriminate|]. intros (k & Hk & _). lia.
  - destruct (negb (i =? to_size_t id) && find_is_end avoid i) eqn:Hc.
    + rewrite Hme. split; [|reflexivity]. intros _.
      exists 0%nat. rewrite Z.add_0_r. split; [lia|exact Hc].
    + rewrite IH. split.
      * intros (k & Hk & Hck). exists (S k). split; [lia|].
        now replace (i + Z.of_nat (S k)) with (i + 1 + Z.of_nat k) by lia.
      * intros ([|k] & Hk & Hck).
        -- rewrite Z.add_0_r, Hc in Hck. discriminate.
        -- exists k. split; [lia|].
           now replace (i + 1 + Z.of_nat k) with (i + Z.of_nat (S k)) by lia.
Qed.

Variable s : LowVolRanker.t.
Hypothesis Hsize : Z.of_nat (length (players_ s)) <= INT_MAX.

Lemma no_player_at_sentinel : vector_at (players_ s) (to_size_t (-1)) = None.
Proof.
  rewrite to_size_t_minus_one. unfold vector_at.
  destruct (decide (0 <= 2 ^ 64 - 1)); [|reflexivity].
  apply lookup_ge_None. unfold INT_MAX in Hsize. lia.
Qed.

Lemma sentinel_ok (j : Z) :
  0 <= j < Z.of_nat (length (players_ s)) ->
  negb (j =? to_size_t (-1)) && find_is_end (avoid_ s) j = find_is_end (avoid_ s) j.
Proof.
  intros Hj. rewrite to_size_t_minus_one.
  replace (j =? 2 ^ 64 - 1) with false; [reflexivity|].
  symmetry. apply Z.eqb_neq. unfold INT_MAX in Hsize. lia.
Qed.

(** The shape of what [get_next_comp] returns, when it returns: no first
    entity and no opponent, or an eligible first entity of positive rd with
    either no opponent or an opponent among the candidates. *)
Lemma get_next_comp_shape (a b : Z) :
  get_next_comp s = Some (a, b) ->
  (a = -1 /\ b = -1)
  \/ (exists me : Player.t,
        vector_at (players_ s) a = Some me
        /\ (0 < Player.get_rd me)%R
        /\ eligible s a
        /\ (b = -1 \/ candidate s a b)).
Proof.
  unfold get_next_comp. cbv zeta.
  destruct (get_best_player_spec s Hsize)
    as [[Ha _]|(me & Hme & Hel & Hrd & _)].
  - rewrite Ha. destruct (get_best_opp s (-1)) as [b'|] eqn:Hopp; [|discriminate].
    cbn. intros [= <- <-]. left. split; [reflexivity|].
    unfold get_best_opp in Hopp.
    exact (get_best_opp_loop_no_me _ _ _ _ no_player_at_sentinel _ _ _ _ Hopp).
  - destruct (get_best_opp_spec s Hsize _ me Hme)
      as (b' & Hb & [[Hb1 _]|(q & _ & Hc & _)]);
      rewrite Hb; cbn; intros [= <- <-]; right; exists me; auto.
Qed.

(** When [get_next_comp] faults: no eligible player has an rd above 0 and
    yet some player is eligible. *)
Lemma get_next_comp_None :
  get_next_comp s = None <->
  (exists j : Z, eligible s j)
  /\ (forall (j : Z) (q : Player.t),
        eligible s j -> vector_at (players_ s) j = Some q -> (Player.get_rd q <= 0)%R).
Proof.
  unfold get_next_comp. cbv zeta.
  destruct (get_best_player_spec s Hsize)
    as [[Ha Hall]|(me & Hme & Hel & Hrd & _)].
  - rewrite Ha. unfold get_best_opp.
    assert (Hf := get_best_opp_loop_fault (avoid_ s) (players_ s) (players_ s) (-1)
                    no_player_at_sentinel 0 (-1) (Finite 0)).
    destruct (get_best_opp_loop (avoid_ s) (players_ s) (-1) (players_ s) 0 (-1) (Finite 0))
      as [b|] eqn:Hopp; cbn.
    + split; [discriminate|]. intros [[j [Hj Hav]] _].
      assert (Hex : exists k : nat,
                (k < length (players_ s))%nat
                /\ negb (0 + Z.of_nat k =? to_size_t (-1))
                   && find_is_end (avoid_ s) (0 + Z.of_nat k) = true).
      { exists (Z.to_nat j). split; [lia|].
        rewrite Z.add_0_l, Z2Nat.id, sentinel_ok by lia. exact Hav. }
      apply Hf in Hex. discriminate.
    + split; [|reflexivity]. intros _. split; [|exact Hall].
      destruct (proj1 Hf eq_refl) as (k & Hk & Hck).
      exists (Z.of_nat k). rewrite Z.add_0_l, sentinel_ok in Hck by lia.
      split; [lia|exact Hck].
  - destruct (get_best_opp_spec s Hsize _ me Hme) as (b & Hb & _).
    rewrite Hb. cbn. split; [discriminate|].
    intros [_ Hall]. specialize (Hall _ me Hel Hme). lra.
Qed.

End AnyState.

(** X11: in any state with fewer than [2^31] players, a pair that [get_next_comp]
    returns has an eligible player or [-1] in each slot, never the same
    player in both, and an opponent only beside a first entity. *)
Theorem get_next_comp_slots (s : LowVolRanker.t) (a b : Z) :
  Z.of_nat (length (LowVolRanker.players_ s)) <= INT_MAX ->
  LowVolRanker.get_next_comp s = Some (a, b) ->
  (a = -1 \/ eligible s a)
  /\ (b = -1 \/ (eligible s b /\ b <> a))
  /\ (a = -1 -> b = -1).
Proof.
  intros Hsize Hnext.
  destruct (get_next_comp_shape s Hsize a b Hnext)
    as [[-> ->]|(me & _ & _ & Hel & Hb)].
  - auto.
  - split; [right; exact Hel|]. split.
    + destruct Hb as [->|Hc]; [left; reflexivity|right; exact Hc].
    + intros ->. destruct Hel as [Hlt _]. lia.
Qed.

(** After the comparison of players 0 and 1 the pair is [(2, -1)]. *)
Lemma get_next_comp_slots_witness :
  (2 = -1 \/ eligible example_compared 2)
  /\ (-1 = -1 \/ (eligible example_compared (-1) /\ -1 <> 2))
  /\ (2 = -1 -> -1 = -1).
Proof.
  apply (get_next_comp_slots example_compared 2 (-1)).
  - cbn. unfold INT_MAX. lia.
  - exact example_compared_next.
Defined.

(** X12: in any state with fewer than [2^31] players, [get_next_comp] runs into
    the out-of-bounds read [players_[-1]] exactly when some player is
    eligible and no eligible player has an rd above 0. *)
Theorem get_next_comp_faults_iff (s : LowVolRanker.t) :
  Z.of_nat (length (LowVolRanker.players_ s)) <= INT_MAX ->
  LowVolRanker.get_next_comp s = None <->
  (exists j : Z, eligible s j)
  /\ (forall (j : Z) (q : Player.t),
        eligible s j -> vector_at (LowVolRanker.players_ s) j = Some q ->
        (Player.get_rd q <= 0)%R).
Proof. intros Hsize. apply get_next_comp_None. exact Hsize. Qed.

(** On [example_mixed] the equivalence has both sides false. *)
Lemma get_next_comp_faults_iff_witness :
  LowVolRanker.get_next_comp example_mixed = None <->
  (exists j : Z, eligible example_mixed j)
  /\ (forall (j : Z) (q : Player.t),
        eligible example_mixed j ->
        vector_at (LowVolRanker.players_ example_mixed) j = Some q ->
        (Player.get_rd q <= 0)%R).
Proof.
  apply (get_next_comp_faults_iff example_mixed).
  cbn. unfold INT_MAX. lia.
Defined.

(** ** Selection reads beliefs only *)

Section Frame.

Import LowVolRanker.

Lemma same_beliefs_refl (ps : list Player.t) : same_beliefs ps ps.
Proof. apply Forall2_same_length_lookup_2; [reflexivity|]. intros i x y H1 H2.
  rewrite H1 in H2. injection H2 as <-. split; reflexivity. Qed.

Lemma same_beliefs_trans (ps qs rs : list Player.t) :
  same_beliefs ps qs -> same_beliefs qs rs -> same_beliefs ps rs.
Proof.
  unfold same_beliefs. intros H1 H2.
  apply (Forall2_trans same_belief same_belief same_belief ps qs rs); [|exact H1|exact H2].
  intros x y z [Ha Hb] [Hc Hd]. split; congruence.
Qed.

Lemma same_beliefs_vector_at (ps qs : list Player.t) (i : Z) :
  same_beliefs ps qs ->
  match vector_at ps i, vector_at qs i with
  | Some p, Some q => same_belief p q
  | None, None => True
  | _, _ => False
  end.
Proof.
  intros H. unfold vector_at. destruct (decide (0 <= i)); [|exact I].
  destruct (ps !! Z.to_nat i) as [p|] eqn:Hp.
  - destruct (Forall2_lookup_l _ _ _ _ _ H Hp) as (q & -> & Hpq). exact Hpq.
  - apply lookup_ge_None in Hp. rewrite (Forall2_length _ _ _ H) in Hp.
    apply lookup_ge_None in Hp. now rewrite Hp.
Qed.

Lemma var_against_same (me me' p q : Player.t) :
  same_belief me me' -> same_belief p q -> var_against me p = var_against me' q.
Proof.
  unfold same_belief, var_against, Player.compute_score_var, Player.get_rating, Player.get_rd.
  intros [-> ->] [-> ->]. reflexivity.
Qed.

Lemma get_best_player_loop_same (avoid ps qs : list Player.t) :
  same_beliefs ps qs ->
  forall (i max_id : Z) (max_rd : float),
  get_best_player_loop avoid ps i max_id max_rd
  = get_best_player_loop avoid qs i max_id max_rd.
Proof.
  induction 1 as [|p q ps qs [_ Hrd] _ IH]; intros i max_id max_rd;
    cbn [get_best_player_loop]; [reflexivity|].
  rewrite Hrd, !IH. reflexivity.
Qed.

Lemma get_best_opp_loop_same (avoid all all' ps qs : list Player.t) (id : Z) :
  same_beliefs all all' -> same_beliefs ps qs ->
  forall (i max_id : Z) (max_var : fp),
  get_best_opp_loop avoid all id ps i max_id max_var
  = get_best_opp_loop avoid all' id qs i max_id max_var.
Proof.
  intros Hall.
  assert (Hme := same_beliefs_vector_at all all' (to_size_t id) Hall).
  induction 1 as [|p q ps qs Hpq _ IH]; intros i max_id max_var;
    cbn [get_best_opp_loop]; [reflexivity|].
  destruct (negb (i =? to_size_t id) && find_is_end avoid i); [|apply IH].
  destruct (vector_at all (to_size_t id)) as [me|],
           (vector_at all' (to_size_t id)) as [me'|]; try contradiction; [|reflexivity].
  cbn [mbind option_bind].
  fold (var_against me p). fold (var_against me' q).
  rewrite (var_against_same me me' p q Hme Hpq), !IH. reflexivity.
Qed.

Lemma get_next_comp_same (s s' : t) :
  same_beliefs (players_ s) (players_ s') -> avoid_ s = avoid_ s' ->
  get_next_comp s = get_next_comp s'.
Proof.
  intros Hps Hav. unfold get_next_comp, get_best_player, get_best_opp. cbv zeta.
  rewrite <- Hav, (get_best_player_loop_same _ _ _ Hps).
  rewrite (get_best_opp_loop_same _ _ _ _ _ _ Hps Hps). reflexivity.
Qed.

Lemma update_player_same (ps ps' : list Player.t) (a b : Z) (sc : float) :
  update_player ps a b sc = Some ps' -> same_beliefs ps ps'.
Proof.
  intros (me & opp & Hme & _ & ->)%update_player_Some.
  apply vector_at_Some in Hme as [_ Hme].
  rewrite <- (list_insert_id ps _ _ Hme) at 1.
  apply Forall2_insert; [apply same_beliefs_refl|]. split; reflexivity.
Qed.

(** A call that registers nobody leaves every rating and rd as it was. *)
Lemma call_same_beliefs (s s' : t) (op : Op) (r : Result) :
  call s op = Some (r, s') -> is_registration op = false ->
  same_beliefs (players_ s) (players_ s').
Proof.
  destruct op as [rating rd| |a b sc [|]| |f]; cbn [call is_registration];
    try discriminate.
  - intros ->%call_get_next_comp _. apply same_beliefs_refl.
  - destruct (receive_comp s a b sc true) as [s1|] eqn:H; [|discriminate].
    cbn. intros [= _ <-] _.
    apply receive_comp_Some in H as (ps1 & ps2 & H1 & H2 & ->). cbn.
    exact (same_beliefs_trans _ _ _ (update_player_same _ _ _ _ _ H1)
             (update_player_same _ _ _ _ _ H2)).
  - rewrite receive_comp_no_update. cbn. intros [= _ <-] _. apply same_beliefs_refl.
  - cbn. intros [= _ <-] _. apply same_beliefs_refl.
  - cbn. intros [= _ <-] _. apply same_beliefs_refl.
Qed.

End Frame.

(** X13: two states whose players agree on rating and rd, position by position,
    and whose avoid-sets are the same get the same answer from
    [get_next_comp], whatever their ledgers, comparison counts and stored
    ids. *)
Theorem get_next_comp_reads_beliefs_only (s s' : LowVolRanker.t) :
  same_beliefs (LowVolRanker.players_ s) (LowVolRanker.players_ s') ->
  LowVolRanker.avoid_ s = LowVolRanker.avoid_ s' ->
  LowVolRanker.get_next_comp s = LowVolRanker.get_next_comp s'.
Proof. apply get_next_comp_same. Qed.

Lemma example_free_step :
  LowVolRanker.receive_comp example_free 0 1 1%R true = Some example_free_compared.
Proof.
  apply receive_comp_Some.
  exists [Player.mk 0 350%R 350%R 1; Player.mk 0 350%R 350%R 0; Player.mk 0 350%R 350%R 0],
         [Player.mk 0 350%R 350%R 1; Player.mk 0 350%R 350%R 1; Player.mk 0 350%R 350%R 0].
  split; [|split].
  - apply update_player_Some.
    exists (Player.mk 0 350%R 350%R 0), (Player.mk 0 350%R 350%R 0).
    split; [reflexivity|]. split; reflexivity.
  - apply update_player_Some.
    exists (Player.mk 0 350%R 350%R 0), (Player.mk 0 350%R 350%R 1).
    split; [reflexivity|]. split; reflexivity.
  - reflexivity.
Qed.

Lemma example_free_beliefs :
  same_beliefs (LowVolRanker.players_ example_free)
    (LowVolRanker.players_ example_free_compared).
Proof. repeat constructor. Qed.

(** The counts and the ledger of [example_free_compared] play no part. *)
Lemma get_next_comp_reads_beliefs_only_witness :
  LowVolRanker.get_next_comp example_free
  = LowVolRanker.get_next_comp example_free_compared.
Proof.
  apply (get_next_comp_reads_beliefs_only example_free example_free_compared).
  - exact example_free_beliefs.
  - reflexivity.
Defined.

(** X14: with the avoid-repeat policy off, no sequence of calls that registers
    nobody changes what [get_next_comp] answers: the comparisons received
    never move the next pair. *)
Theorem next_comp_frozen_without_avoid (ops : list Op) (s s' : LowVolRanker.t) :
  LowVolRanker.avoid_twice_ s = false ->
  forallb (fun op => negb (is_registration op)) ops = true ->
  run s ops = Some s' ->
  LowVolRanker.get_next_comp s' = LowVolRanker.get_next_comp s.
Proof.
  revert s. induction ops as [|op ops IH]; intros s Hoff Hops; cbn [run].
  - now intros [= <-].
  - cbn [forallb] in Hops. apply andb_true_iff in Hops as [Hop Hops].
    apply negb_true_iff in Hop.
    destruct (call s op) as [[r s1]|] eqn:Hc; [|discriminate].
    cbn [mbind option_bind]. intros Hrun.
    destruct (call_avoid _ _ _ _ Hc) as [Hflag Hav].
    rewrite (IH s1) by (try congruence; assumption).
    symmetry. apply get_next_comp_same.
    + exact (call_same_beliefs _ _ _ _ Hc Hop).
    + rewrite Hav, Hoff. now destruct op as [rating rd| |a b sc [|]| |f].
Qed.

(** The comparison of players 0 and 1 on [example_free]. *)
Lemma next_comp_frozen_without_avoid_witness :
  LowVolRanker.get_next_comp example_free_compared
  = LowVolRanker.get_next_comp example_free.
Proof.
  apply (next_comp_frozen_without_avoid [ReceiveComp 0 1 1%R true]).
  - reflexivity.
  - reflexivity.
  - cbn [run call]. rewrite example_free_step. reflexivity.
Defined.

(** ** What whole runs keep *)

Section Runs.

Import LowVolRanker.

(** One update in the vector keeps every player at its position, with its
    id, rating and rd. *)
Lemma update_player_keeps (ps ps' : list Player.t) (a b : Z) (sc : float)
    (i : Z) (q : Player.t) :
  update_player ps a b sc = Some ps' ->
  vector_at ps i = Some q ->
  exists q' : Player.t,
    vector_at ps' i = Some q'
    /\ Player.id_ q' = Player.id_ q
    /\ Player.get_rating q' = Player.get_rating q
    /\ Player.get_rd q' = Player.get_rd q.
Proof.
  intros (me & opp & Hme & _ & ->)%update_player_Some Hq.
  apply vector_at_Some in Hme as [_ Hme]. apply vector_at_Some in Hq as [H0 Hq].
  destruct (decide (Z.to_nat (to_size_t a) = Z.to_nat i)) as [Heq|Hne].
  - rewrite Heq in *. rewrite Hme in Hq. injection Hq as <-.
    exists (Player.update me sc (Player.get_rating opp) (Player.get_rd opp)).
    split; [|repeat split].
    apply vector_at_Some. split; [exact H0|].
    apply list_lookup_insert_eq. now apply lookup_lt_Some in Hme.
  - exists q. split; [|repeat split].
    apply vector_at_Some. split; [exact H0|].
    now rewrite list_lookup_insert_ne.
Qed.

Lemma call_keeps (s s' : t) (op : Op) (r : Result) (i : Z) (q : Player.t) :
  call s op = Some (r, s') ->
  vector_at (players_ s) i = Some q ->
  exists q' : Player.t,
    vector_at (players_ s') i = Some q'
    /\ Player.id_ q' = Player.id_ q
    /\ Player.get_rating q' = Player.get_rating q
    /\ Player.get_rd q' = Player.get_rd q.
Proof.
  destruct op as [rating rd| |a b sc [|]| |f]; cbn [call].
  - destruct (addPlayer s rating rd) as [s1|] eqn:H; [|discriminate].
    cbn. intros [= _ <-] Hq. apply addPlayer_Some in H as (id & _ & ->). cbn.
    exists q. split; [|repeat split]. now apply vector_at_app_l.
  - intros ->%call_get_next_comp Hq. exists q. repeat split. exact Hq.
  - destruct (receive_comp s a b sc true) as [s1|] eqn:H; [|discriminate].
    cbn. intros [= _ <-] Hq.
    apply receive_comp_Some in H as (ps1 & ps2 & H1 & H2 & ->). cbn.
    destruct (update_player_keeps _ _ _ _ _ _ _ H1 Hq) as (q1 & Hq1 & Hi1 & Hr1 & Hd1).
    destruct (update_player_keeps _ _ _ _ _ _ _ H2 Hq1) as (q2 & Hq2 & Hi2 & Hr2 & Hd2).
    exists q2. split; [exact Hq2|]. repeat split; congruence.
  - rewrite receive_comp_no_update. cbn. intros [= _ <-] Hq.
    exists q. repeat split. exact Hq.
  - cbn. intros [= _ <-] Hq. exists q. repeat split. exact Hq.
  - cbn. intros [= _ <-] Hq. exists q. repeat split. exact Hq.
Qed.

Lemma call_ledger_of (s s' : t) (op : Op) (r : Result) :
  call s op = Some (r, s') -> comps_ s' = comps_ s ++ ledger_of [op].
Proof.
  intros Hc. destruct (call_ledger _ _ _ _ Hc) as (added & -> & ->).
  now destruct op.
Qed.

Lemma call_avoid_registered (s s' : t) (op : Op) (r : Result) :
  call s op = Some (r, s') -> avoid_registered s -> avoid_registered s'.
Proof.
  unfold avoid_registered.
  destruct op as [rating rd| |a b sc [|]| |f]; cbn [call].
  - destruct (addPlayer s rating rd) as [s1|] eqn:H; [|discriminate].
    cbn. intros [= _ <-]. apply addPlayer_Some in H as (id & _ & ->). cbn.
    intros Hall. apply (Forall_impl _ _ _ Hall). intros p Hp. rewrite length_app. cbn. lia.
  - intros ->%call_get_next_comp. auto.
  - destruct (receive_comp s a b sc true) as [s1|] eqn:H; [|discriminate].
    cbn. intros [= _ <-].
    apply receive_comp_Some in H as (ps1 & ps2 & H1 & H2 & ->). cbn.
    rewrite (update_player_length _ _ _ _ _ H2), (update_player_length _ _ _ _ _ H1).
    apply update_player_Some in H1 as (me & opp & Hme & Hopp & _).
    apply vector_at_lt in Hme. apply vector_at_lt in Hopp.
    destruct (avoid_twice_ s); [|auto]. intros _.
    repeat constructor; cbn; lia.
  - rewrite receive_comp_no_update. cbn. intros [= _ <-]. auto.
  - cbn. intros [= _ <-]. auto.
  - cbn. intros [= _ <-]. auto.
Qed.

Lemma reachable_avoid (s : t) : reachable s -> avoid_registered s.
Proof.
  intros (b & ops & Hrun).
  assert (H0 : avoid_registered (new b)) by constructor.
  revert Hrun H0. generalize (new b). induction ops as [|op ops IH]; intros s0; cbn [run].
  - intros [= <-]. auto.
  - destruct (call s0 op) as [[r s1]|] eqn:Hc; [|discriminate].
    cbn [mbind option_bind]. intros Hrun H0.
    exact (IH s1 Hrun (call_avoid_registered _ _ _ _ Hc H0)).
Qed.

Lemma reachable_call (s s' : t) (op : Op) (r : Result) :
  reachable s -> call s op = Some (r, s') -> reachable s'.
Proof.
  intros (b & ops & Hrun) Hc. exists b, (ops ++ [op]).
  revert Hrun. generalize (new b). induction ops as [|op0 ops IH]; intros s0; cbn [run app].
  - intros [= ->]. rewrite Hc. reflexivity.
  - destruct (call s0 op0) as [[r0 s1]|]; [|discriminate]. cbn. apply IH.
Qed.

End Runs.

(** X15: across any sequence of calls a registered player stays at its position
    with the id, the rating and the rd it had: no call of the interface ever
    changes a rating or an rd, or removes a player. *)
Theorem run_keeps_beliefs (ops : list Op) (s s' : LowVolRanker.t) (i : Z) (q : Player.t) :
  run s ops = Some s' ->
  vector_at (LowVolRanker.players_ s) i = Some q ->
  exists q' : Player.t,
    vector_at (LowVolRanker.players_ s') i = Some q'
    /\ Player.id_ q' = Player.id_ q
    /\ Player.get_rating q' = Player.get_rating q
    /\ Player.get_rd q' = Player.get_rd q.
Proof.
  revert s q. induction ops as [|op ops IH]; intros s q; cbn [run].
  - intros [= <-] Hq. exists q. repeat split. exact Hq.
  - destruct (call s op) as [[r s1]|] eqn:Hc; [|discriminate].
    cbn [mbind option_bind]. intros Hrun Hq.
    destruct (call_keeps _ _ _ _ _ _ Hc Hq) as (q1 & Hq1 & Hi1 & Hr1 & Hd1).
    destruct (IH s1 q1 Hrun Hq1) as (q2 & Hq2 & Hi2 & Hr2 & Hd2).
    exists q2. split; [exact Hq2|]. repeat split; congruence.
Qed.

(** Player 0 across the comparison of players 0 and 1. *)
Lemma run_keeps_beliefs_witness :
  exists q' : Player.t,
    vector_at (LowVolRanker.players_ example_compared) 0 = Some q'
    /\ Player.id_ q' = 0
    /\ Player.get_rating q' = 350%R
    /\ Player.get_rd q' = 350%R.
Proof.
  apply (run_keeps_beliefs [ReceiveComp 0 1 1%R true] example_registered example_compared
           0 (Player.mk 0 350%R 350%R 0)).
  - cbn [run call]. rewrite example_compared_step. reflexivity.
  - reflexivity.
Defined.

(** X16: the ledger after a sequence of calls is the ledger before it followed by
    one entry per [receive_comp] call, in the order of the calls and whatever
    their update flags. *)
Theorem run_ledger_is_history (ops : list Op) (s s' : LowVolRanker.t) :
  run s ops = Some s' ->
  LowVolRanker.comps_ s' = LowVolRanker.comps_ s ++ ledger_of ops.
Proof.
  revert s. induction ops as [|op ops IH]; intros s; cbn [run].
  - intros [= <-]. cbn. now rewrite app_nil_r.
  - destruct (call s op) as [[r s1]|] eqn:Hc; [|discriminate].
    cbn [mbind option_bind]. intros Hrun.
    rewrite (IH s1 Hrun), (call_ledger_of _ _ _ _ Hc), <- app_assoc.
    f_equal. now destruct op.
Qed.

(** The ledger after [example_ops]. *)
Lemma run_ledger_is_history_witness :
  LowVolRanker.comps_ example_compared = [] ++ ledger_of example_ops.
Proof.
  exact (run_ledger_is_history example_ops (LowVolRanker.new true) example_compared
           example_compared_run).
Defined.

(** ** Applying an outcome: bounds and frame *)

Lemma update_player_None (ps : list Player.t) (a b : Z) (sc : float) :
  LowVolRanker.update_player ps a b sc = None <->
  vector_at ps (to_size_t a) = None \/ vector_at ps (to_size_t b) = None.
Proof.
  unfold LowVolRanker.update_player, LowVolRanker.update_args.
  destruct (vector_at ps (to_size_t a)) as [me|], (vector_at ps (to_size_t b)) as [opp|];
    cbn; split; intros H; try discriminate; auto; destruct H; discriminate.
Qed.

Lemma vector_at_None_length {A} (v w : list A) (i : Z) :
  length v = length w -> vector_at v i = None -> vector_at w i = None.
Proof.
  intros Hlen. unfold vector_at. destruct (decide (0 <= i)); [|reflexivity].
  rewrite !lookup_ge_None. lia.
Qed.

(** X17: a [receive_comp] call with [update = true] runs into undefined behaviour
    exactly when one of its two ids lies outside the collection; nothing
    else, the score included, is looked at. With [update = false] every call
    completes. *)
Theorem receive_comp_faults_iff (s : LowVolRanker.t) (id1 id2 : Z) (score : float) :
  (LowVolRanker.receive_comp s id1 id2 score true = None <->
   vector_at (LowVolRanker.players_ s) (to_size_t id1) = None
   \/ vector_at (LowVolRanker.players_ s) (to_size_t id2) = None)
  /\ LowVolRanker.receive_comp s id1 id2 score false <> None.
Proof.
  split; [|rewrite receive_comp_no_update; discriminate].
  unfold LowVolRanker.receive_comp.
  destruct (LowVolRanker.update_player (LowVolRanker.players_ s) id1 id2 score)
    as [ps1|] eqn:H1; cbn [mbind option_bind].
  - assert (Hlen := update_player_length _ _ _ _ _ H1).
    destruct (LowVolRanker.update_player ps1 id2 id1 (1 - score)%R) as [ps2|] eqn:H2;
      cbn [mbind option_bind].
    + split; [discriminate|]. intros Hor.
      apply (proj2 (update_player_None _ id1 id2 score)) in Hor.
      rewrite Hor in H1. discriminate.
    + split; [|reflexivity]. intros _.
      apply update_player_None in H2 as [H2|H2].
      * right. exact (vector_at_None_length _ _ _ Hlen H2).
      * left. exact (vector_at_None_length _ _ _ Hlen H2).
  - split; [|reflexivity]. intros _. now apply update_player_None in H1.
Qed.

(** X18: a [receive_comp] call with [update = true] keeps the size of the
    collection and leaves every player other than its two participants
    exactly as it was. *)
Theorem receive_comp_touches_participants_only
    (s s' : LowVolRanker.t) (id1 id2 : Z) (score : float) (j : Z) :
  LowVolRanker.receive_comp s id1 id2 score true = Some s' ->
  j <> to_size_t id1 -> j <> to_size_t id2 ->
  length (LowVolRanker.players_ s') = length (LowVolRanker.players_ s)
  /\ vector_at (LowVolRanker.players_ s') j = vector_at (LowVolRanker.players_ s) j.
Proof.
  intros (ps1 & ps2 & H1 & H2 & ->)%receive_comp_Some Hj1 Hj2. cbn.
  split.
  - rewrite (update_player_length _ _ _ _ _ H2). exact (update_player_length _ _ _ _ _ H1).
  - apply update_player_Some in H1 as (me1 & opp1 & Hme1 & _ & ->).
    apply update_player_Some in H2 as (me2 & opp2 & Hme2 & _ & ->).
    apply vector_at_lt in Hme1. apply vector_at_lt in Hme2.
    unfold vector_at. destruct (decide (0 <= j)); [|reflexivity].
    rewrite !list_lookup_insert_ne by lia. reflexivity.
Qed.

(** Player 2 across the comparison of players 0 and 1. *)
Lemma receive_comp_touches_participants_only_witness :
  length (LowVolRanker.players_ example_compared)
  = length (LowVolRanker.players_ example_registered)
  /\ vector_at (LowVolRanker.players_ example_compared) 2
     = vector_at (LowVolRanker.players_ example_registered) 2.
Proof.
  apply (receive_comp_touches_participants_only example_registered example_compared
           0 1 1%R 2 example_compared_step).
  - rewrite to_size_t_id by lia. lia.
  - rewrite to_size_t_id by lia. lia.
Defined.



(** ** The avoid-repeat policy at work *)

Lemma to_size_t_int (z : Z) :
  is_int z -> to_size_t z = if decide (0 <= z) then z else z + 2 ^ 64.
Proof.
  unfold is_int, INT_MIN, INT_MAX, to_size_t. intros H.
  destruct (decide (0 <= z)).
  - apply Z.mod_small. lia.
  - symmetry. apply (Z.mod_unique_pos _ _ (-1)); lia.
Qed.

(** An [int] id inside a collection of fewer than [2^31] players is its own
    position. *)
Lemma valid_int_id {A} (v : list A) (id : Z) :
  Z.of_nat (length v) <= INT_MAX -> is_int id ->
  is_Some (vector_at v (to_size_t id)) -> 0 <= id /\ to_size_t id = id.
Proof.
  intros Hsize Hint [x Hx]. apply vector_at_lt in Hx.
  rewrite (to_size_t_int id Hint) in *.
  unfold is_int, INT_MIN, INT_MAX in *.
  destruct (decide (0 <= id)); lia.
Qed.

Lemma find_is_end_pair (id1 id2 j : Z) :
  LowVolRanker.find_is_end [Player.of_int id1; Player.of_int id2] j = true ->
  j <> to_size_t id1 /\ j <> to_size_t id2.
Proof.
  unfold LowVolRanker.find_is_end, Player_eq_index. cbn [existsb Player.of_int Player.new Player.id_].
  rewrite negb_true_iff, orb_false_r, orb_false_iff, !Z.eqb_neq. intros [H1 H2]. auto.
Qed.

(** X20: with the avoid-repeat policy on, the pair [get_next_comp] returns right
    after a [receive_comp] call with [update = true] holds neither of the two
    players just compared, in either slot. *)
Theorem receive_comp_then_avoided
    (s s' : LowVolRanker.t) (id1 id2 : Z) (score : float) (a b : Z) :
  Z.of_nat (length (LowVolRanker.players_ s)) <= INT_MAX ->
  is_int id1 -> is_int id2 ->
  LowVolRanker.avoid_twice_ s = true ->
  LowVolRanker.receive_comp s id1 id2 score true = Some s' ->
  LowVolRanker.get_next_comp s' = Some (a, b) ->
  a <> id1 /\ a <> id2 /\ b <> id1 /\ b <> id2.
Proof.
  intros Hsize Hi1 Hi2 Hon Hrc Hnext.
  apply receive_comp_Some in Hrc as Hrc'. destruct Hrc' as (ps1 & ps2 & H1 & H2 & Hs').
  assert (Hlen : length (LowVolRanker.players_ s') = length (LowVolRanker.players_ s)).
  { rewrite Hs'. cbn. rewrite (update_player_length _ _ _ _ _ H2).
    exact (update_player_length _ _ _ _ _ H1). }
  apply update_player_Some in H1 as (me & opp & Hme & Hopp & _).
  destruct (valid_int_id _ id1 Hsize Hi1 (ex_intro _ _ Hme)) as [H01 Hs1].
  destruct (valid_int_id _ id2 Hsize Hi2 (ex_intro _ _ Hopp)) as [H02 Hs2].
  assert (Hel : forall j, eligible s' j -> j <> id1 /\ j <> id2).
  { intros j [_ Hav]. rewrite Hs', Hon in Hav. cbn in Hav.
    apply find_is_end_pair in Hav. now rewrite Hs1, Hs2 in Hav. }
  assert (Hsize' : Z.of_nat (length (LowVolRanker.players_ s')) <= INT_MAX) by lia.
  destruct (get_next_comp_shape s' Hsize' a b Hnext)
    as [[-> ->]|(_ & _ & _ & Ha & Hb)].
  - lia.
  - destruct (Hel a Ha) as [Ha1 Ha2].
    destruct Hb as [->|[Hb _]]; [lia|].
    destruct (Hel b Hb) as [Hb1 Hb2]. auto.
Qed.

(** After the comparison of players 0 and 1 the pair is [(2, -1)]. *)
Lemma receive_comp_then_avoided_witness :
  2 <> 0 /\ 2 <> 1 /\ -1 <> 0 /\ -1 <> 1.
Proof.
  apply (receive_comp_then_avoided example_registered example_compared 0 1 1%R 2 (-1)).
  - cbn. unfold INT_MAX. lia.
  - unfold is_int, INT_MIN, INT_MAX. lia.
  - unfold is_int, INT_MIN, INT_MAX. lia.
  - reflexivity.
  - exact example_compared_step.
  - exact example_compared_next.
Defined.

(** X21: in every reachable state each id in the avoid-set is the position of a
    registered player. *)
Theorem reachable_avoid_registered (s : LowVolRanker.t) (p : Player.t) :
  reachable s ->
  In p (LowVolRanker.avoid_ s) ->
  is_Some (vector_at (LowVolRanker.players_ s) (to_size_t (Player.id_ p))).
Proof.
  intros Hreach Hin. apply reachable_avoid in Hreach.
  assert (Hp := proj1 (List.Forall_forall _ _) Hreach p Hin). cbn in Hp.
  unfold vector_at. destruct (decide (0 <= to_size_t (Player.id_ p))); [|lia].
  apply lookup_lt_is_Some_2. lia.
Qed.

(** The second entry of the avoid-set of [example_compared]. *)
Lemma reachable_avoid_registered_witness :
  is_Some (vector_at (LowVolRanker.players_ example_compared)
             (to_size_t (Player.id_ (Player.of_int 1)))).
Proof.
  apply (reachable_avoid_registered example_compared (Player.of_int 1)).
  - exists true, example_ops. exact example_compared_run.
  - cbn. auto.
Defined.

(** X22: in a reachable state, a player just registered is eligible at once, and
    the next [get_next_comp] returns a pair whose first slot is not the
    sentinel. *)
Theorem addPlayer_then_selected (s s' : LowVolRanker.t) (rating rd : float) :
  reachable s ->
  Z.of_nat (length (LowVolRanker.players_ s)) < INT_MAX ->
  LowVolRanker.addPlayer s rating rd = Some s' ->
  eligible s' (Z.of_nat (length (LowVolRanker.players_ s)))
  /\ exists a b : Z, LowVolRanker.get_next_comp s' = Some (a, b) /\ a <> -1.
Proof.
  intros Hreach Hsize Hadd.
  assert (Hreach' : reachable s').
  { apply (reachable_call s s' (AddPlayer rating rd) Void Hreach). cbn [call].
    rewrite Hadd. reflexivity. }
  apply addPlayer_Some in Hadd as (id & _ & Hs').
  assert (Hlen : length (LowVolRanker.players_ s') = S (length (LowVolRanker.players_ s))).
  { rewrite Hs'. cbn. rewrite length_app. cbn. lia. }
  assert (Hsize' : Z.of_nat (length (LowVolRanker.players_ s')) <= INT_MAX) by lia.
  assert (Hel : eligible s' (Z.of_nat (length (LowVolRanker.players_ s)))).
  { split; [lia|]. rewrite Hs'. cbn [LowVolRanker.avoid_].
    apply reachable_avoid in Hreach. unfold avoid_registered in Hreach.
    unfold LowVolRanker.find_is_end. apply negb_true_iff.
    apply not_true_is_false. intros Hex. apply existsb_exists in Hex as (p & Hin & Hp).
    assert (Hlt := proj1 (List.Forall_forall _ _) Hreach p Hin). cbn in Hlt.
    unfold Player_eq_index in Hp. apply Z.eqb_eq in Hp. lia. }
  split; [exact Hel|].
  unfold LowVolRanker.get_next_comp. cbv zeta.
  destruct (get_best_player_spec s' Hsize')
    as [[_ Hall]|(me & Hme & Ha & Hrd & _)].
  - destruct (eligible_lookup s' _ Hel) as [q Hq].
    specialize (Hall _ q Hel Hq). rewrite (reachable_rd s' _ q Hreach' Hq) in Hall. lra.
  - destruct (get_best_opp_spec s' Hsize' _ me Hme) as (b & Hb & _).
    exists (LowVolRanker.get_best_player s'), b. rewrite Hb.
    split; [reflexivity|]. destruct Ha as [Hlt _]. lia.
Qed.

(** A fourth registration after [example_ops]. *)
Lemma addPlayer_then_selected_witness :
  exists s' : LowVolRanker.t,
    LowVolRanker.addPlayer example_compared 0%R 350%R = Some s'
    /\ eligible s' 3
    /\ exists a b : Z, LowVolRanker.get_next_comp s' = Some (a, b) /\ a <> -1.
Proof.
  destruct (addPlayer_new_entry example_compared 0%R 350%R 0 float_to_int_zero)
    as (s' & Hadd & _).
  exists s'. split; [exact Hadd|].
  apply (addPlayer_then_selected example_compared s' 0%R 350%R).
  - exists true, example_ops. exact example_compared_run.
  - cbn. unfold INT_MAX. lia.
  - exact Hadd.
Defined.

(** X23: in a reachable state the first slot of [get_next_comp] is the lowest
    eligible position: every rd is the same, so the highest-rd rule never
    gets to prefer a later player. *)
Theorem reachable_first_slot_lowest (s : LowVolRanker.t) (j : Z) :
  reachable s ->
  Z.of_nat (length (LowVolRanker.players_ s)) <= INT_MAX ->
  eligible s j ->
  exists a b : Z,
    LowVolRanker.get_next_comp s = Some (a, b) /\ eligible s a /\ a <= j.
Proof.
  intros Hreach Hsize Hj.
  destruct (eligible_lookup s j Hj) as [q Hq].
  assert (Hqrd := reachable_rd s j q Hreach Hq).
  unfold LowVolRanker.get_next_comp. cbv zeta.
  destruct (get_best_player_spec s Hsize)
    as [[_ Hall]|(me & Hme & Ha & Hrd & _ & Hfirst)].
  - specialize (Hall j q Hj Hq). lra.
  - destruct (get_best_opp_spec s Hsize _ me Hme) as (b & Hb & _).
    exists (LowVolRanker.get_best_player s), b. rewrite Hb.
    split; [reflexivity|]. split; [exact Ha|].
    destruct (Z_le_gt_dec (LowVolRanker.get_best_player s) j) as [Hle|Hgt]; [exact Hle|].
    assert (Hlt := Hfirst j q ltac:(lia) Hj Hq).
    rewrite Hqrd, (reachable_rd s _ me Hreach Hme) in Hlt. lra.
Qed.

(** On [example_compared] position 2 is eligible, and selected. *)
Lemma reachable_first_slot_lowest_witness :
  exists a b : Z,
    LowVolRanker.get_next_comp example_compared = Some (a, b)
    /\ eligible example_compared a /\ a <= 2.
Proof.
  apply (reachable_first_slot_lowest example_compared 2).
  - exists true, example_ops. exact example_compared_run.
  - cbn. unfold INT_MAX. lia.
  - split; [cbn; lia|reflexivity].
Defined.

(** ** The formulas on the default player *)

(** [get_g] against the default rd 350 and against rd 0. *)
Lemma get_g_decreasing_witness :
  Player.get_g (Player.of_int 0) 0%R = 1%R
  /\ (0 < Player.get_g (Player.of_int 0) 350)%R
  /\ (Player.get_g (Player.of_int 0) 350 < Player.get_g (Player.of_int 0) 0)%R
  /\ (Player.get_g (Player.of_int 0) 0 <= 1)%R.
Proof.
  apply (get_g_decreasing (Player.of_int 0) 0%R 350%R).
  rewrite Rabs_R0, Rabs_pos_eq; lra.
Defined.

(** The default player against an opponent rated 100 and one rated 0. *)
Lemma get_expected_score_increasing_witness :
  (Player.get_expected_score (Player.of_int 0) 100 350 1
   < Player.get_expected_score (Player.of_int 0) 0 350 1)%R.
Proof.
  apply (get_expected_score_increasing (Player.of_int 0) (Player.of_int 0)
           100%R 0%R 350%R 350%R 1%R).
  - lra.
  - unfold Player.of_int, Player.new, Player.default_rating, Player.rating_. lra.
Defined.

(** The default player with [d2 = 1]. *)
Lemma get_new_rd_bounds_witness :
  (0 < Player.get_new_rd (Player.of_int 0) 1 < 350)%R
  /\ (Player.get_new_rd (Player.of_int 0) 1 * Player.get_new_rd (Player.of_int 0) 1
      = 350 * 350 * 1 / (350 * 350 + 1))%R.
Proof.
  apply (get_new_rd_bounds (Player.of_int 0) 1%R).
  - unfold Player.of_int, Player.new, Player.default_rd, Player.rd_. lra.
  - lra.
Defined.

(** The default player, a win, and [d2 = 1]. *)
Lemma get_new_rating_direction_witness :
  let e := Player.get_expected_score (Player.of_int 0) 0%R 350%R
             (Player.get_g (Player.of_int 0) 350%R) in
  let r := Player.get_new_rating (Player.of_int 0) 1%R 0%R 350%R 1%R in
  ((e < 1 -> Player.rating_ (Player.of_int 0) < r)
   /\ (1 < e -> r < Player.rating_ (Player.of_int 0))
   /\ (1 = e -> r = Player.rating_ (Player.of_int 0))
   /\ Rabs (r - Player.rating_ (Player.of_int 0))
      <= Player.Q * (Player.rd_ (Player.of_int 0) * Player.rd_ (Player.of_int 0))
         * Rabs (1 - e))%R.
Proof.
  apply (get_new_rating_direction (Player.of_int 0) 1%R 0%R 350%R 1%R).
  - unfold Player.of_int, Player.new, Player.default_rd, Player.rd_. lra.
  - lra.
Defined.

(** The state after [example_ops] is reachable and holds three players. *)
Lemma get_next_comp_reachable_safe_witness :
  exists a b : Z,
    LowVolRanker.get_next_comp example_compared = Some (a, b)
    /\ (a = -1 <-> forall j : Z, ~ eligible example_compared j)
    /\ (fewer_than_two_eligible example_compared -> b = -1)
    /\ (a <> -1 -> eligible example_compared a)
    /\ (b <> -1 -> eligible example_compared b /\ b <> a).
Proof.
  apply (get_next_comp_reachable_safe example_compared).
  - exists true, example_ops. exact example_compared_run.
  - cbn. unfold INT_MAX. lia.
Defined.

(** In [example_mixed] the first slot holds player 1. *)
Lemma second_slot_greatest_variance_witness :
  exists (b : Z) (me : Player.t),
    LowVolRanker.get_next_comp example_mixed
    = Some (LowVolRanker.get_best_player example_mixed, b)
    /\ vector_at (LowVolRanker.players_ example_mixed)
         (LowVolRanker.get_best_player example_mixed) = Some me.
Proof.
  destruct (second_slot_greatest_variance example_mixed) as (b & me & Hnext & Hme & _).
  - cbn. unfold INT_MAX. lia.
  - rewrite example_mixed_best_player. discriminate.
  - exists b, me. split; [exact Hnext|exact Hme].
Defined.
